(** * Video sliding windows: a shallow embedding of [4-Video.ipynb]

    The notebook reduces a video to PCA coordinates ([getPCAVideo]), builds a
    sliding-window embedding with linear interpolation
    ([getSlidingWindowVideo]), mean-centers and normalizes every window,
    and scores blocks of a long video by the largest persistence of their
    degree-1 diagram (the KTH cell), finally ranking the videos.

    The functions below follow the notebook line by line.  They are written
    once, over a carrier [T] of scalars given by type classes, because the
    notebook's numbers are numpy doubles and the properties of interest are
    of three kinds:
    - at [float] (the kernel's IEEE binary64, executable): what the code
      counts, where it cuts, and what happens with 0/0 and with the square
      root of a negative number; the loop of [getSlidingWindowVideo] is
      treated for every carrier, hence for this one;
    - at [Q] (exact rationals, executable): arithmetic on integers, where
      doubles are exact (block counts and index ranges, integer sample
      times, the ranking);
    - at [R] (real numbers): identities that need square roots, which hold
      in exact arithmetic and are read "up to rounding" on doubles.

    External collaborators ([linalg.eigh], [doRipsFiltration],
    [getTimeDerivative]) are Section variables, and a video stands for the
    frame matrix [loadVideo] returns; [scipy.interpolate.interp2d] and
    [np.argsort] are modelled by what they are documented to compute, and
    so is, for 2 x 2 matrices, the LAPACK routine behind [linalg.eigh]. *)

From Stdlib Require Import ZArith QArith Qround Reals Lia Bool.
From Stdlib Require Lra Lqa.
From Stdlib Require Floats.PrimFloat Floats.FloatOps Floats.FloatAxioms.
From Stdlib Require Numbers.Cyclic.Int63.Uint63.
From stdpp Require Import base option list list_numbers sorting.

Local Open Scope Z_scope.

(** ** Python exceptions and the error monad *)

Inductive exn : Set := ValueError | ZeroDivisionError | IndexError.

Inductive result (A : Type) : Type :=
| Ok (a : A)
| Raise (e : exn).
Arguments Ok {A} a.
Arguments Raise {A} e.

#[global] Instance result_ret : MRet result := fun A a => Ok a.
#[global] Instance result_bind : MBind result :=
  fun A B f m => match m with Ok a => f a | Raise e => Raise e end.

(** ** Scalars *)

(** Arithmetic and comparisons of the carrier.  [fdiv] is numpy's array
    division (it never raises); Python's scalar division is [py_div]
    below. *)
Class Scalar (T : Type) : Type := {
  fzero : T;
  fadd : T -> T -> T;
  fsub : T -> T -> T;
  fmul : T -> T -> T;
  fdiv : T -> T -> T;
  fneg : T -> T;
  of_int : Z -> T;
  fltb : T -> T -> bool;
  feqb : T -> T -> bool
}.

(** [np.sqrt]. *)
Class Roots (T : Type) : Type := np_sqrt : T -> T.

(** [int(np.floor(x))] and [int(np.ceil(x))]: [None] where Python's [int]
    refuses the value (NaN, infinities).  Both refusals are reported as
    [ValueError] below. *)
Class Rounding (T : Type) : Type := {
  floor_int : T -> option Z;
  ceil_int : T -> option Z
}.

Declare Scope num_scope.
Delimit Scope num_scope with num.
Notation "x + y" := (fadd x y) : num_scope.
Notation "x - y" := (fsub x y) : num_scope.
Notation "x * y" := (fmul x y) : num_scope.
Notation "x / y" := (fdiv x y) : num_scope.
Notation "- x" := (fneg x) : num_scope.

(** *** Exact rationals *)

#[global] Instance Q_scalar : Scalar Q := {|
  fzero := 0%Q;
  fadd := Qplus;
  fsub := Qminus;
  fmul := Qmult;
  fdiv := Qdiv;
  fneg := Qopp;
  of_int := inject_Z;
  fltb := fun a b => negb (Qle_bool b a);
  feqb := Qeq_bool
|}.

#[global] Instance Q_rounding : Rounding Q := {|
  floor_int := fun x => Some (Qfloor x);
  ceil_int := fun x => Some (Qceiling x)
|}.

(** *** Real numbers *)

#[global] Instance R_scalar : Scalar R := {|
  fzero := 0%R;
  fadd := Rplus;
  fsub := Rminus;
  fmul := Rmult;
  fdiv := Rdiv;
  fneg := Ropp;
  of_int := IZR;
  fltb := fun a b => if Rlt_dec a b then true else false;
  feqb := fun a b => if Req_dec_T a b then true else false
|}.

#[global] Instance R_roots : Roots R := sqrt.

#[global] Instance R_rounding : Rounding R := {|
  floor_int := fun x => Some (Int_part x);
  ceil_int := fun x => Some (- Int_part (- x))
|}.

(** *** IEEE binary64 *)

(** Exact below 2^53, which covers every count and index of the notebook. *)
Definition float_of_Z (z : Z) : PrimFloat.float :=
  match z with
  | Z0 => PrimFloat.zero
  | Zpos _ => PrimFloat.of_uint63 (Uint63.of_Z z)
  | Zneg p => PrimFloat.opp (PrimFloat.of_uint63 (Uint63.of_Z (Zpos p)))
  end.

(** The integer part of a finite double [(-1)^s * m * 2^e], rounded down. *)
Definition float_floor (x : PrimFloat.float) : option Z :=
  match FloatOps.Prim2SF x with
  | SpecFloat.S754_zero _ => Some 0
  | SpecFloat.S754_finite s m e =>
      let n := if s then Zneg m else Zpos m in
      Some (if 0 <=? e then n * 2 ^ e else n / 2 ^ (- e))
  | _ => None
  end.

Definition float_ceil (x : PrimFloat.float) : option Z :=
  match float_floor (PrimFloat.opp x) with
  | Some z => Some (- z)
  | None => None
  end.

#[global] Instance float_scalar : Scalar PrimFloat.float := {|
  fzero := PrimFloat.zero;
  fadd := PrimFloat.add;
  fsub := PrimFloat.sub;
  fmul := PrimFloat.mul;
  fdiv := PrimFloat.div;
  fneg := PrimFloat.opp;
  of_int := float_of_Z;
  fltb := PrimFloat.ltb;
  feqb := PrimFloat.eqb
|}.

#[global] Instance float_roots : Roots PrimFloat.float := PrimFloat.sqrt.

#[global] Instance float_rounding : Rounding PrimFloat.float := {|
  floor_int := float_floor;
  ceil_int := float_ceil
|}.

(** [x != x], true of NaN only. *)
Definition is_nan (x : PrimFloat.float) : bool := negb (PrimFloat.eqb x x).

(** ** numpy and Python helpers *)

(** A 2-D array, as the list of its rows. *)
Abbreviation matrix T := (list (list T)).

Section Numpy.
Context {T : Type} `{Scalar T}.

(** Python's [a / b] on scalars: division by zero raises. *)
Definition py_div (a b : T) : result T :=
  if feqb b fzero then Raise ZeroDivisionError else Ok (a / b)%num.

Definition py_int_floor `{Rounding T} (x : T) : result Z :=
  match floor_int x with Some z => Ok z | None => Raise ValueError end.

Definition py_int_ceil `{Rounding T} (x : T) : result Z :=
  match ceil_int x with Some z => Ok z | None => Raise ValueError end.

(** [I.shape[1]]; an array without rows is given no columns. *)
Definition shape1 (I : matrix T) : Z :=
  match I with [] => 0 | r :: _ => Z.of_nat (length r) end.

(** [np.zeros((n, m))]: a negative dimension is a [ValueError]. *)
Definition np_zeros2 (n m : Z) : result (matrix T) :=
  if (n <? 0) || (m <? 0) then Raise ValueError
  else Ok (replicate (Z.to_nat n) (replicate (Z.to_nat m) fzero)).

(** [np.zeros(n)]. *)
Definition np_zeros (n : Z) : result (list T) :=
  if n <? 0 then Raise ValueError else Ok (replicate (Z.to_nat n) fzero).

(** [np.arange(n)]. *)
Definition np_arange (n : Z) : list Z := seqZ 0 n.

(** Position [j] of a sequence of length [n], negative positions counted
    from the end; [None] when Python raises [IndexError]. *)
Definition py_index (n : nat) (j : Z) : option nat :=
  if (0 <=? j) && (j <? Z.of_nat n) then Some (Z.to_nat j)
  else if (- Z.of_nat n <=? j) && (j <? 0) then Some (Z.to_nat (j + Z.of_nat n))
  else None.

(** [l[j]]. *)
Definition py_getitem {A} (l : list A) (j : Z) : result A :=
  match py_index (length l) j with
  | Some k => match l !! k with Some a => Ok a | None => Raise IndexError end
  | None => Raise IndexError
  end.

(** A slice bound as Python normalizes it. *)
Definition slice_bound (n : nat) (j : Z) : nat :=
  Z.to_nat (if j <? 0 then Z.max 0 (j + Z.of_nat n) else Z.min j (Z.of_nat n)).

(** [l[lo:hi]]. *)
Definition py_slice {A} (l : list A) (lo hi : Z) : list A :=
  let a := slice_bound (length l) lo in
  let b := slice_bound (length l) hi in
  take (b - a) (drop a l).

(** [I[js, :]], rows picked by an index array. *)
Definition take_rows (I : matrix T) (js : list Z) : result (matrix T) :=
  mapM (py_getitem I) js.

(** [np.sum] of one row, accumulated from the left.  numpy groups the
    additions of a long row differently (pairwise, in blocks): the sum is
    the same in exact arithmetic and may differ in the last bits on
    doubles. *)
Definition np_sum (l : list T) : T := foldl fadd fzero l.

(** [np.mean] of one row. *)
Definition np_mean (l : list T) : T :=
  (np_sum l / of_int (Z.of_nat (length l)))%num.

(** [np.maximum]: the larger value, NaN if either is. *)
Definition np_maximum (a b : T) : T :=
  if fltb a b || negb (feqb b b) then b else a.

(** [A.dot(B.T)]: entry (i, j) is the dot product of row i of [A] and row j
    of [B]. *)
Definition dot (a b : list T) : T := np_sum (zip_with fmul a b).
Definition dot_T (A B : matrix T) : matrix T :=
  map (fun a => map (fun b => dot a b) B) A.

(** Modelled from the spec: [scipy.interpolate.interp2d(x, y, z,
    kind='linear')], which is not part of the notebook.  On the grid
    columns [x] the interpolant is "linear in time, identity in feature
    index": at time [t] between consecutive grid times [y0 <= t < y1]
    it is the weighted mean of the two grid rows; past the last grid time it
    keeps the last row.  [interp_time] scans the grid for the interval. *)
Fixpoint interp_time (y : list T) (z : matrix T) (t : T) (p : nat) : T :=
  match y, z with
  | y0 :: ((y1 :: _) as y'), z0 :: ((z1 :: _) as z') =>
      if fltb t y1 then
        ((y1 - t) / (y1 - y0) * default fzero (z0 !! p)
         + (t - y0) / (y1 - y0) * default fzero (z1 !! p))%num
      else interp_time y' z' t p
  | _, z0 :: _ => default fzero (z0 !! p)
  | _, [] => fzero
  end.

(** [f = interp2d(x, y, z); f(xs, ts)]: one row per time, one column per
    requested feature.  The notebook passes [x = xs = np.arange(P)], so the
    requested feature [p] is column [p] of [z]. *)
Definition interp2d (x y : list Z) (z : matrix T) (xs : list Z) (ts : list T)
  : matrix T :=
  map (fun t => map (fun p => interp_time (map of_int y) z t (Z.to_nat p)) xs) ts.

(** Modelled from the spec: [np.argsort(a)] (numpy, not part of the
    notebook), the positions of [a] in ascending order of value.  Here by
    insertion, equal values kept in their original order; numpy's default
    algorithm may order ties differently. *)
Fixpoint argsort_insert (a : list T) (i : nat) (sorted : list nat) : list nat :=
  match sorted with
  | [] => [i]
  | j :: rest =>
      if fltb (default fzero (a !! j)) (default fzero (a !! i))
      then j :: argsort_insert a i rest
      else i :: j :: rest
  end.

Definition np_argsort (a : list T) : list nat :=
  foldr (argsort_insert a) [] (seq 0 (length a)).

End Numpy.

(** ** The notebook's functions *)

Section Video.
Context {T : Type} `{Scalar T} `{Rounding T}.

(** *** [getSlidingWindowVideo] *)

(** The sample times of window [i]: [dT*i + Tau*np.arange(dim)]. *)
Definition idxx_of (dim : Z) (Tau dT : T) (i : nat) : list T :=
  map (fun k => (dT * of_int (Z.of_nat i) + Tau * of_int k)%num) (np_arange dim).

(** The body of [for i in range(NWindows)], run over the remaining values
    of [i]; [X] is the array filled so far.  The [break] returns
    [X[0:i, :]]. *)
Fixpoint sliding_loop (I : matrix T) (dim : Z) (Tau dT : T)
    (range : list nat) (X : matrix T) : result (matrix T) :=
  match range with
  | [] => Ok X
  | i :: range' =>
      let N := Z.of_nat (length I) in
      let pix := np_arange (shape1 I) in
      let idx := np_arange N in
      let idxx := idxx_of dim Tau dT i in
      first_t ← py_getitem idxx 0;
      start ← py_int_floor first_t;
      last_t ← py_getitem idxx (-1);
      c ← py_int_ceil last_t;
      let end_ := c + 2 in
      if N <=? end_ then Ok (take i X)
      else
        let ys := py_slice idx start (end_ + 1) in
        Iw ← take_rows I ys;
        let row := concat (interp2d pix ys Iw pix idxx) in
        sliding_loop I dim Tau dT range' (<[i := row]> X)
  end.

Definition getSlidingWindowVideo (I : matrix T) (dim : Z) (Tau dT : T)
  : result (matrix T) :=
  let N := Z.of_nat (length I) in
  let P := shape1 I in
  q ← py_div (of_int N - of_int dim * Tau)%num dT;
  NWindows ← py_int_floor q;
  X ← np_zeros2 NWindows (dim * P);
  sliding_loop I dim Tau dT (seq 0 (Z.to_nat NWindows)) X.

(** *** Block partition of the KTH cell *)

(** [NBlocks = int(np.ceil(1 + (N - BlockLen)/BlockHop))]. *)
Definition NBlocks_of (N BlockLen BlockHop : Z) : result Z :=
  q ← py_div (of_int (N - BlockLen)) (of_int BlockHop);
  py_int_ceil (of_int 1 + q)%num.

(** [thisidxs]: [np.arange(k*BlockHop, k*BlockHop+BlockLen)] restricted to
    [thisidxs < N]. *)
Definition thisidxs (N BlockLen BlockHop k : Z) : list Z :=
  filter (fun x => x < N) (seqZ (k * BlockHop) BlockLen).

(** The list [idxs] after the loop [for k in range(NBlocks)]. *)
Definition block_idxs (N BlockLen BlockHop : Z) : result (list (list Z)) :=
  NBlocks ← NBlocks_of N BlockLen BlockHop;
  Ok (map (thisidxs N BlockLen BlockHop) (seqZ 0 NBlocks)).

(** [Tau] and [dT] of one block: [Tau = win/float(dim-1)],
    [dT = (len(idx)-dim*Tau)/float(len(idx))]. *)
Definition block_params (win dim : Z) (idx : list Z) : result (T * T) :=
  Tau ← py_div (of_int win) (of_int (dim - 1));
  let n := of_int (Z.of_nat (length idx)) in
  dT ← py_div (n - of_int dim * Tau)%num n;
  Ok (Tau, dT).

(** *** Ranking: [np.argsort(-scores)+1] *)
Definition ranking (scores : list T) : list nat :=
  map (fun i => (i + 1)%nat) (np_argsort (map fneg scores)).

End Video.

Section Normalize.
Context {T : Type} `{Scalar T} `{Roots T}.

(** *** Mean-centering and normalization *)

(** [XS = XS - np.mean(XS, 1)[:, None]], on one row. *)
Definition mean_center (row : list T) : list T :=
  let m := np_mean row in map (fun x => (x - m)%num) row.

(** [np.sqrt(np.sum(XS**2, 1))], on one row. *)
Definition row_norm (row : list T) : T :=
  np_sqrt (np_sum (map (fun x => (x * x)%num) row)).

(** [XS = XS/np.sqrt(np.sum(XS**2, 1))[:, None]], on one row. *)
Definition unit_scale (row : list T) : list T :=
  let n := row_norm row in map (fun x => (x / n)%num) row.

(** Both lines, on the whole cloud. *)
Definition normalize_cloud (XS : matrix T) : matrix T :=
  map unit_scale (map mean_center XS).

(** *** [getPCAVideo] *)

Section PCA.
(** [linalg.eigh]: eigenvalues and the matrix whose columns are the
    eigenvectors. *)
Variable eigh : matrix T -> list T * matrix T.

(** [V*np.sqrt(lam[None, :])]: column [k] of [V] times [sqrt(lam[k])]. *)
Definition scale_columns (V : matrix T) (lam : list T) : matrix T :=
  map (fun row => zip_with fmul row (map np_sqrt lam)) V.

Definition getPCAVideo (I : matrix T) : matrix T :=
  let ICov := dot_T I I in
  let '(lam, V) := eigh ICov in
  scale_columns V lam.

(** [max(lambda, 0)]. *)
Definition clamp0 (x : T) : T := np_maximum x fzero.

(** The reducer as the specification words it, with negative eigenvalues
    clamped to zero before the square root; for comparison with
    [getPCAVideo]. *)
Definition getPCAVideo_clamped (I : matrix T) : matrix T :=
  let ICov := dot_T I I in
  let '(lam, V) := eigh ICov in
  scale_columns V (map clamp0 lam).
End PCA.

End Normalize.

(** *** The KTH cell: block scores of one video, scores of all videos *)

Section KTH.
Context {T : Type} `{Scalar T} `{Rounding T} `{Roots T}.

(** External collaborators. A persistence diagram is a list of
    (birth, death) rows; [doRipsFiltration] returns one per degree. *)
Variable eigh : matrix T -> list T * matrix T.
Variable getTimeDerivative : matrix T -> Z -> matrix T * list Z.
Variable doRipsFiltration : matrix T -> Z -> list (list (T * T)).

(** The notebook's globals. *)
Variables BlockLen BlockHop win dim : Z.

(** What the inner loop keeps for one video: [res], [scores[i]], [maxXS],
    [maxPD]. *)
Record kth_state : Type := {
  res : list T;
  score : T;
  maxXS : matrix T;
  maxPD : list (T * T)
}.

(** From [idx = idxs[j]] to the normalized cloud [XS] of the block. *)
Definition block_cloud (X : matrix T) (idx : list Z) : result (matrix T) :=
  '(Tau, dT) ← block_params win dim idx;
  Xb ← take_rows X idx;
  XS ← getSlidingWindowVideo Xb dim Tau dT;
  Ok (normalize_cloud XS).

(** [PDs[1][:, 1] - PDs[1][:, 0]]. *)
Definition persistences (PD : list (T * T)) : list T :=
  map (fun bd => (snd bd - fst bd)%num) PD.

(** The lines after [doRipsFiltration]: [continue] when there is no degree-1
    diagram, nothing when it is empty, else record [res[j]], the [np.max]
    of the persistences, and raise the video's score. *)
Definition score_block (st : kth_state) (j : nat) (XS : matrix T)
    (PDs : list (list (T * T))) : kth_state :=
  match PDs with
  | _ :: PD1 :: _ =>
      match persistences PD1 with
      | [] => st
      | p :: ps =>
          let m := foldl np_maximum p ps in
          let res' := <[j := m]> (res st) in
          if fltb (score st) m
          then {| res := res'; score := m; maxXS := XS; maxPD := PD1 |}
          else {| res := res'; score := score st;
                  maxXS := maxXS st; maxPD := maxPD st |}
      end
  | _ => st
  end.

(** [for j in range(len(idxs))], from block [j] on. *)
Fixpoint kth_loop (X : matrix T) (j : nat) (idxs : list (list Z))
    (st : kth_state) : result kth_state :=
  match idxs with
  | [] => Ok st
  | idx :: idxs' =>
      XS ← block_cloud X idx;
      let PDs := doRipsFiltration XS 1 in
      kth_loop X (S j) idxs' (score_block st j XS PDs)
  end.

(** One video, from the derivative-filtered series [X] on. *)
Definition kth_video (X : matrix T) : result kth_state :=
  let N := Z.of_nat (length X) in
  idxs ← block_idxs N BlockLen BlockHop;
  NBlocks ← NBlocks_of N BlockLen BlockHop;
  res0 ← np_zeros NBlocks;
  kth_loop X 0 idxs
    {| res := res0; score := fzero; maxXS := []; maxPD := [] |}.

(** [scores] after the loop over the videos, each given by its frame
    matrix. *)
Definition kth_scores (videos : list (matrix T)) : result (list T) :=
  mapM (fun XOrig =>
          let X := getPCAVideo eigh XOrig in
          let '(X, validIdx) := getTimeDerivative X 10 in
          st ← kth_video X;
          Ok (score st)) videos.

(** The printed ranking. *)
Definition kth_ranking (videos : list (matrix T)) : result (list nat) :=
  scores ← kth_scores videos;
  Ok (ranking scores).

End KTH.

Arguments res {T}.
Arguments score {T}.
Arguments maxXS {T}.
Arguments maxPD {T}.

(** ** Vocabulary of the statements *)

(** *** Sliding windows, for every carrier *)

Section Windows.
Context {T : Type} `{Scalar T} `{Rounding T}.

(** [NWindows = int(np.floor((N-dim*Tau)/dT))], as the function computes
    it. *)
Definition NWindows_of (N dim : Z) (Tau dT : T) : result Z :=
  q ← py_div (of_int N - of_int dim * Tau)%num dT;
  py_int_floor q.

(** Entry [k] of [idxx] for window [i], as the function computes it. *)
Definition sample_of (Tau dT : T) (i : nat) (k : Z) : T :=
  (dT * of_int (Z.of_nat i) + Tau * of_int k)%num.

(** [start] and [end] of window [i]: the floor of the first sample time,
    and the ceiling of the last one plus 2. *)
Definition slice_start (Tau dT : T) (i : nat) : result Z :=
  py_int_floor (sample_of Tau dT i 0).
Definition slice_end (dim : Z) (Tau dT : T) (i : nat) : result Z :=
  c ← py_int_ceil (sample_of Tau dT i (dim - 1));
  Ok (c + 2).

(** Frame [j] of the series. *)
Definition frame (I : matrix T) (j : Z) : list T := default [] (I !! Z.to_nat j).

(** The row of window [i] as the specification words it: the [dim x P]
    matrix whose entry [(k, p)] is feature [p] interpolated linearly in
    time, over the frames [s .. e], at the sample time [dT*i + Tau*k];
    flattened row by row. *)
Definition window_flat (I : matrix T) (dim : Z) (Tau dT : T) (i : nat)
    (s e : Z) : list T :=
  let ys := py_slice (np_arange (Z.of_nat (length I))) s (e + 1) in
  concat (map (fun k =>
                 map (fun p => interp_time (map of_int ys) (map (frame I) ys)
                                 (sample_of Tau dT i k) (Z.to_nat p))
                     (np_arange (shape1 I)))
              (np_arange dim)).

End Windows.

(** *** Sliding windows in exact arithmetic, at [Q] *)

(** The value [NWindows] has when nothing is rounded.  On doubles the
    quotient is rounded before the floor is taken, and [NWindows_of] at
    [float] can be smaller by one; the two agree on integer [Tau] and
    [dT]. *)
Definition NumWindows (N dim : Z) (Tau dT : Q) : Z :=
  Qfloor ((inject_Z N - inject_Z dim * Tau) / dT)%Q.

(** Entry [k] of [idxx] for window [i]. *)
Definition sample_time (Tau dT : Q) (i : nat) (k : Z) : Q :=
  (dT * inject_Z (Z.of_nat i) + Tau * inject_Z k)%Q.

(** [start] and [end] of window [i] when nothing is rounded: the frames
    [start .. end] are the ones the loop body slices out of [I]. *)
Definition window_start (Tau dT : Q) (i : nat) : Z :=
  Qfloor (sample_time Tau dT i 0).
Definition window_end (dim : Z) (Tau dT : Q) (i : nat) : Z :=
  Qceiling (sample_time Tau dT i (dim - 1)) + 2.

(** Frame [j] of the series, and its feature [p]. *)
Definition frame_row (I : matrix Q) (j : Z) : list Q :=
  default [] (I !! Z.to_nat j).
Definition frame_entry (I : matrix Q) (j : Z) (p : nat) : Q :=
  default 0%Q (frame_row I j !! p).

(** Linear interpolation in time of feature [p] at time [t], between the
    frames [floor t] and [floor t + 1]. *)
Definition lerp_frames (I : matrix Q) (t : Q) (p : nat) : Q :=
  let j := Qfloor t in
  let w := (t - inject_Z j)%Q in
  ((1 - w) * frame_entry I j p + w * frame_entry I (j + 1) p)%Q.

(** The [dim x P] matrix of interpolated features of window [i], flattened
    row by row. *)
Definition window_row (I : matrix Q) (dim : Z) (Tau dT : Q) (i : nat) : list Q :=
  concat (map (fun k =>
                 map (fun p => lerp_frames I (sample_time Tau dT i k) (Z.to_nat p))
                     (np_arange (shape1 I)))
              (np_arange dim)).

(** The row the loop body writes for window [i] when it does not break. *)
Definition body_row (I : matrix Q) (dim : Z) (Tau dT : Q) (i : nat) : list Q :=
  let s := window_start Tau dT i in
  let ys := seqZ s (window_end dim Tau dT i + 1 - s) in
  concat (interp2d (np_arange (shape1 I)) ys (map (frame_row I) ys)
                   (np_arange (shape1 I)) (idxx_of dim Tau dT i)).

(** *** Ranking, at [Q] *)

(** Position [i] sorts no later than position [j] in [np.argsort(a)]. *)
Definition key_le (a : list Q) (i j : nat) : Prop :=
  (default 0%Q (a !! i) <= default 0%Q (a !! j))%Q.

(** *** Mean and norm, at [R] *)

(** The arithmetic mean and the Euclidean norm of a row, as the
    specification words them: defined apart from the notebook's
    expressions, for comparison with them. *)
Definition mean_R (l : list R) : R :=
  (fold_right Rplus 0 l / INR (length l))%R.
Definition norm_R (l : list R) : R :=
  sqrt (fold_right Rplus 0 (map (fun x => x * x) l))%R.

(** *** Eigendecomposition, at [R] *)

(** Entry (i, j) of [V diag(lam) V^T], from rows [i] and [j] of [V]. *)
Definition spectral_sum (lam vi vj : list R) : R :=
  np_sum (zip_with fmul (zip_with fmul vi lam) vj).

(** What a symmetric eigensolver returns for [G] in exact arithmetic:
    a square [V] with [G = V diag(lam) V^T] (orthonormal eigenvectors as
    columns, [G V = V diag(lam)]). *)
Definition reconstructs (G : matrix R) (lam : list R) (V : matrix R) : Prop :=
  length V = length G
  /\ Forall (fun v => length v = length lam) V
  /\ forall i j vi vj gi,
       V !! i = Some vi -> V !! j = Some vj -> G !! i = Some gi ->
       gi !! j = Some (spectral_sum lam vi vj).

(** *** Block scores, at [R] *)

(** [m] is the largest element of [l]. *)
Definition is_max (m : R) (l : list R) : Prop :=
  m ∈ l /\ Forall (fun x => (x <= m)%R) l.

(** The block score as the specification words it: the largest
    [death - birth] of the degree-1 diagram, 0 when that diagram is empty
    or there is none. *)
Definition block_score_spec (PDs : list (list (R * R))) (r : R) : Prop :=
  match PDs with
  | _ :: PD1 :: _ =>
      match PD1 with
      | [] => r = 0%R
      | _ :: _ => is_max r (persistences PD1)
      end
  | _ => r = 0%R
  end.

(** The loop of [kth_video] once the cloud of every block is known. *)
Fixpoint score_all (doRips : matrix R -> Z -> list (list (R * R))) (j : nat)
    (clouds : list (matrix R)) (st : kth_state (T:=R)) : kth_state (T:=R) :=
  match clouds with
  | [] => st
  | XS :: clouds' =>
      score_all doRips (S j) clouds' (score_block st j XS (doRips XS 1))
  end.

(** The loop invariant: what holds of the state after the first [j] of [n]
    blocks have been scored. *)
Definition scored (doRips : matrix R -> Z -> list (list (R * R))) (n j : nat)
    (clouds : list (matrix R)) (st : kth_state (T:=R)) : Prop :=
  length (res st) = n
  /\ (forall i, (j <= i < n)%nat -> res st !! i = Some 0%R)
  /\ (forall i XS, (i < j)%nat -> clouds !! i = Some XS ->
        exists r, res st !! i = Some r /\ block_score_spec (doRips XS 1) r)
  /\ (0 <= score st)%R
  /\ (forall i r, (i < j)%nat -> res st !! i = Some r -> (r <= score st)%R)
  /\ (score st = 0%R \/ exists i, (i < j)%nat /\ res st !! i = Some (score st)).


(** ** Stand-ins for the external collaborators, used in the examples *)

Section Lapack.
Import PrimFloat.
Local Open Scope float_scope.

(** Not part of the notebook.  Modelled from the spec: LAPACK's routine
    DLAEV2, the eigendecomposition of the symmetric 2 x 2 matrix
    [[a, b], [b, c]] that the symmetric drivers behind [linalg.eigh] call
    for a matrix of order 2.  It returns the eigenvalue [rt1] of larger
    absolute value, the other eigenvalue [rt2], and the unit eigenvector
    [(cs1, sn1)] of [rt1].  The operations are those of the reference
    implementation, in its order, each rounded to binary64. *)
Definition dlaev2 (a b c : float) : float * float * (float * float) :=
  let sm := a + c in
  let df := a - c in
  let adf := abs df in
  let tb := b + b in
  let ab := abs tb in
  let '(acmx, acmn) := if ltb (abs c) (abs a) then (a, c) else (c, a) in
  let rt :=
    if ltb ab adf then adf * sqrt (1 + (ab / adf) * (ab / adf))
    else if ltb adf ab then ab * sqrt (1 + (adf / ab) * (adf / ab))
    else ab * sqrt 2 in
  let '(rt1, rt2, sgn1) :=
    if ltb sm 0 then
      let rt1 := 0.5 * (sm - rt) in
      (rt1, (acmx / rt1) * acmn - (b / rt1) * b, false)
    else if ltb 0 sm then
      let rt1 := 0.5 * (sm + rt) in
      (rt1, (acmx / rt1) * acmn - (b / rt1) * b, true)
    else (0.5 * rt, - (0.5 * rt), true) in
  let '(cs, sgn2) := if leb 0 df then (df + rt, true) else (df - rt, false) in
  let '(cs1, sn1) :=
    if ltb ab (abs cs) then
      let ct := - tb / cs in
      let sn1 := 1 / sqrt (1 + ct * ct) in
      (ct * sn1, sn1)
    else if eqb ab 0 then (1, 0)
    else
      let tn := - cs / tb in
      let cs1 := 1 / sqrt (1 + tn * tn) in
      (cs1, tn * cs1) in
  let '(cs1, sn1) := if Bool.eqb sgn1 sgn2 then (- sn1, cs1) else (cs1, sn1) in
  (rt1, rt2, (cs1, sn1)).

(** Not part of the notebook.  Modelled from the spec: [linalg.eigh] on a
    2 x 2 matrix.  The lower triangle is read, DLAEV2 gives the two
    eigenvalues and the rotation, and the result is sorted: eigenvalues
    ascending, eigenvectors as columns.  It instantiates [eigh] where an
    example needs an eigensolver that runs. *)
Definition eigh_2x2 (G : matrix float) : list float * matrix float :=
  match G with
  | [[a; _]; [b; c]] =>
      let '(rt1, rt2, (cs, sn)) := dlaev2 a b c in
      if ltb rt2 rt1 then ([rt2; rt1], [[- sn; cs]; [cs; sn]])
      else ([rt1; rt2], [[cs; - sn]; [sn; cs]])
  | _ => ([], [])
  end.

End Lapack.

(** Not part of the notebook: a persistence computer that always reports an
    empty degree-0 diagram and the two degree-1 pairs (0, 1) and (0, 2). *)
Definition rips_stub : matrix R -> Z -> list (list (R * R)) :=
  fun _ _ => [[]; [(0, 1); (0, 2)]]%R.

(** ** Example inputs *)

(** Five frames of two features. *)
Definition I5 : matrix Q :=
  [[0; 10]; [1; 20]; [2; 30]; [3; 40]; [4; 50]]%Q.

(** Three frames of one feature. *)
Definition X3 : matrix R := [[0]; [1]; [2]]%R.

(** The spectral decomposition of the Gram matrix of the frames [1] and
    [0]. *)
Definition eigh_10 : matrix R -> list R * matrix R :=
  fun _ => ([0; 1], [[0; 1]; [1; 0]])%R.

(** Ten frames of one feature, frame [k] holding [k]. *)
Definition X10 : matrix R := map (fun k => [IZR k]) (seqZ 0 10).

Section FloatInputs.
Import PrimFloat.

(** Five frames of two features, on doubles. *)
Definition I5f : matrix float :=
  [[0; 10]; [1; 20]; [2; 30]; [3; 40]; [4; 50]]%float.

(** 0.1, 0.28 and 0.7 rounded to binary64. *)
Definition tenth : float := 0x1.999999999999ap-4%float.
Definition c028 : float := 0x1.1eb851eb851ecp-2%float.
Definition c07 : float := 0x1.6666666666666p-1%float.

(** Two frames of one feature, 0.6 and 0.7 rounded to binary64. *)
Definition X67 : matrix float :=
  [[0x1.3333333333333p-1]; [0x1.6666666666666p-1]]%float.

(** Two proportional frames of one feature, 1.5 and 2.7 rounded to
    binary64. *)
Definition X15_27 : matrix float := [[1.5]; [0x1.599999999999ap+1]]%float.

(** A static window. *)
Definition static_window : list float := [1; 1; 1]%float.

(** A static window of 0.1 rounded to binary64. *)
Definition static_tenths : list float :=
  [0x1.999999999999ap-4; 0x1.999999999999ap-4; 0x1.999999999999ap-4]%float.

(** A window that is not constant: its middle entry is the double next
    above 1. *)
Definition nearly_constant : list float := [1; 0x1.0000000000001p+0; 1]%float.

(** Eight frames of two features, alternating (0, 0) and (1, 1). *)
Definition X8 : matrix float :=
  [[0; 0]; [1; 1]; [0; 0]; [1; 1]; [0; 0]; [1; 1]; [0; 0]; [1; 1]]%float.

End FloatInputs.

(** * Properties *)

Ltac lraQ := Lqa.lra.
Ltac lraR := Lra.lra.
Ltac nraR := Lra.nra.

(** Runs the binds of the error monad whose argument is a value. *)
Ltac rbind := cbn [mbind result_bind mret result_ret].

(** The same, also through the integer conversions at [Q]. *)
Ltac rsimpl :=
  cbn [mbind result_bind mret result_ret py_int_floor py_int_ceil
       floor_int ceil_int Q_rounding].

(** ** Python helpers *)

Lemma mapM_Ok {A B} (f : A -> result B) (g : A -> B) (l : list A) :
  (forall x, x ∈ l -> f x = Ok (g x)) -> mapM f l = Ok (map g l).
Proof.
  induction l as [|x l IH]; intros Hf; [reflexivity|].
  cbn. rewrite (Hf x) by (apply elem_of_cons; now left). cbn.
  rewrite IH by (intros y Hy; apply Hf; apply elem_of_cons; now right).
  reflexivity.
Qed.

Lemma mapM_Ok_length {A B} (f : A -> result B) (l : list A) (k : list B) :
  mapM f l = Ok k -> length k = length l.
Proof.
  revert k. induction l as [|x l IH]; intros k Hk.
  - cbn in Hk. inversion Hk. reflexivity.
  - cbn [mapM] in Hk. destruct (f x); [|discriminate].
    cbn [mbind result_bind] in Hk.
    destruct (mapM f l) as [k'|]; [|discriminate].
    cbn in Hk. inversion Hk; subst. cbn. f_equal. apply IH. reflexivity.
Qed.

Lemma py_getitem_first {A} (x : A) (l : list A) : py_getitem (x :: l) 0 = Ok x.
Proof.
  unfold py_getitem, py_index. cbn [length].
  replace ((0 <=? 0) && (0 <? Z.of_nat (S (length l)))) with true; [reflexivity|].
  symmetry. apply andb_true_iff. split; [reflexivity|apply Z.ltb_lt; lia].
Qed.

Lemma py_getitem_last {A} (l : list A) (x : A) :
  last l = Some x -> py_getitem l (-1) = Ok x.
Proof.
  intros Hl. unfold py_getitem, py_index.
  assert (0 < length l)%nat as Hn by (destruct l; [discriminate|cbn; lia]).
  replace ((0 <=? -1) && (-1 <? Z.of_nat (length l))) with false by reflexivity.
  replace ((- Z.of_nat (length l) <=? -1) && (-1 <? 0)) with true.
  2:{ symmetry. apply andb_true_iff. split; [apply Z.leb_le; lia|reflexivity]. }
  rewrite last_lookup in Hl.
  replace (Z.to_nat (-1 + Z.of_nat (length l))) with (Nat.pred (length l)) by lia.
  rewrite Hl. reflexivity.
Qed.

Lemma py_getitem_in_range {A} (l : list A) (j : Z) (d : A) :
  0 <= j < Z.of_nat (length l) ->
  py_getitem l j = Ok (default d (l !! Z.to_nat j)).
Proof.
  intros Hj. unfold py_getitem, py_index.
  replace ((0 <=? j) && (j <? Z.of_nat (length l))) with true.
  2:{ symmetry. apply andb_true_iff. split; [apply Z.leb_le|apply Z.ltb_lt]; lia. }
  destruct (l !! Z.to_nat j) eqn:E; [reflexivity|].
  apply lookup_ge_None in E. lia.
Qed.

Lemma py_slice_arange (N lo hi : Z) :
  0 <= lo -> lo <= hi -> hi <= N ->
  py_slice (np_arange N) lo hi = seqZ lo (hi - lo).
Proof.
  intros H0 H1 H2. unfold py_slice, np_arange, slice_bound.
  rewrite length_seqZ.
  replace (lo <? 0) with false by (symmetry; apply Z.ltb_ge; lia).
  replace (hi <? 0) with false by (symmetry; apply Z.ltb_ge; lia).
  rewrite !Z.min_l by lia.
  apply list_eq. intros k.
  destruct (decide (k < Z.to_nat hi - Z.to_nat lo)%nat) as [Hk|Hk].
  - rewrite lookup_take_lt by exact Hk. rewrite lookup_drop.
    rewrite !lookup_seqZ_lt by lia. f_equal. lia.
  - rewrite lookup_take_ge by lia. symmetry. apply lookup_seqZ_ge. lia.
Qed.

Lemma shape1_nonneg {T} (I : matrix T) : 0 <= shape1 I.
Proof. destruct I; cbn; lia. Qed.

Section ScalarFacts.
Context {T : Type} `{Scalar T}.

Lemma py_div_ok (a b : T) : feqb b fzero = false -> py_div a b = Ok (a / b)%num.
Proof. intros E. unfold py_div. rewrite E. reflexivity. Qed.

Lemma idxx_first (dim : Z) (Tau dT : T) (i : nat) :
  0 < dim ->
  py_getitem (idxx_of dim Tau dT i) 0
  = Ok (dT * of_int (Z.of_nat i) + Tau * of_int 0)%num.
Proof.
  intros Hd. unfold idxx_of, np_arange. rewrite seqZ_cons by lia.
  cbn [map]. apply py_getitem_first.
Qed.

Lemma idxx_last (dim : Z) (Tau dT : T) (i : nat) :
  0 < dim ->
  py_getitem (idxx_of dim Tau dT i) (-1)
  = Ok (dT * of_int (Z.of_nat i) + Tau * of_int (dim - 1))%num.
Proof.
  intros Hd. apply py_getitem_last. unfold idxx_of, np_arange.
  rewrite last_lookup, length_map, length_seqZ, list_lookup_fmap.
  rewrite lookup_seqZ_lt by lia. cbn.
  replace (0 + Z.of_nat (Nat.pred (Z.to_nat dim))) with (dim - 1) by lia.
  reflexivity.
Qed.

End ScalarFacts.

(** ** Rounding and comparisons at [Q] *)

Lemma inject_Z_sub (x y : Z) : inject_Z (x - y) = (inject_Z x - inject_Z y)%Q.
Proof. unfold Z.sub, Qminus. now rewrite inject_Z_plus, inject_Z_opp. Qed.

Lemma Qceiling_intro (x : Q) (z : Z) :
  (inject_Z z - 1 < x)%Q -> (x <= inject_Z z)%Q -> Qceiling x = z.
Proof.
  intros Hlo Hhi.
  pose proof (Qle_ceiling x) as H1. pose proof (Qceiling_lt x) as H2.
  rewrite inject_Z_sub in H2.
  assert (Qceiling x - 1 < z) as A
    by (rewrite Zlt_Qlt, inject_Z_sub; change (inject_Z 1) with 1%Q in *; lraQ).
  assert (z - 1 < Qceiling x) as B
    by (rewrite Zlt_Qlt, inject_Z_sub; change (inject_Z 1) with 1%Q in *; lraQ).
  lia.
Qed.

Lemma Qfloor_intro (x : Q) (z : Z) :
  (inject_Z z <= x)%Q -> (x < inject_Z z + 1)%Q -> Qfloor x = z.
Proof.
  intros Hlo Hhi.
  pose proof (Qfloor_le x) as H1. pose proof (Qlt_floor x) as H2.
  rewrite inject_Z_plus in H2.
  assert (Qfloor x < z + 1) as A
    by (rewrite Zlt_Qlt, inject_Z_plus; change (inject_Z 1) with 1%Q in *; lraQ).
  assert (z < Qfloor x + 1) as B
    by (rewrite Zlt_Qlt, inject_Z_plus; change (inject_Z 1) with 1%Q in *; lraQ).
  lia.
Qed.

(** [ceil(1 + a/b)] in integer arithmetic. *)
Lemma Qceiling_div (a b : Z) :
  0 < b -> Qceiling (inject_Z 1 + inject_Z a / inject_Z b) = 1 + (a + b - 1) / b.
Proof.
  intros Hb.
  assert (0 < inject_Z b)%Q as Hb' by (rewrite (Zlt_Qlt 0 b) in Hb; exact Hb).
  pose proof (Z.div_mod (a + b - 1) b ltac:(lia)) as Hd.
  pose proof (Z.mod_pos_bound (a + b - 1) b Hb) as Hm.
  set (c := (a + b - 1) / b) in *.
  assert (inject_Z c - 1 < inject_Z a / inject_Z b)%Q as Hlo.
  { apply Qlt_shift_div_l; [exact Hb'|].
    change 1%Q with (inject_Z 1).
    rewrite <- inject_Z_sub, <- inject_Z_mult, <- Zlt_Qlt. nia. }
  assert (inject_Z a / inject_Z b <= inject_Z c)%Q as Hhi.
  { apply Qle_shift_div_r; [exact Hb'|].
    rewrite <- inject_Z_mult, <- Zle_Qle. nia. }
  apply Qceiling_intro; rewrite inject_Z_plus; change (inject_Z 1) with 1%Q in *; lraQ.
Qed.

Lemma py_div_Q (a b : Q) : ~ (b == 0)%Q -> py_div a b = Ok (a / b)%Q.
Proof.
  intros Hb. unfold py_div. cbn.
  destruct (Qeq_bool b 0) eqn:E; [|reflexivity].
  apply Qeq_bool_iff in E. contradiction.
Qed.

Lemma inject_Z_nonzero (z : Z) : z <> 0 -> ~ (inject_Z z == 0)%Q.
Proof. intros Hz E. apply (inject_Z_injective z 0) in E. contradiction. Qed.

Lemma fltb_Q_lt (a b : Q) : fltb a b = true <-> (a < b)%Q.
Proof.
  cbn. rewrite negb_true_iff. split.
  - intros E. apply Qnot_le_lt. intros Hle. apply Qle_bool_iff in Hle. congruence.
  - intros Hlt. destruct (Qle_bool b a) eqn:E; [|reflexivity].
    apply Qle_bool_iff in E. lraQ.
Qed.

Lemma fltb_Q_ge (a b : Q) : fltb a b = false <-> (b <= a)%Q.
Proof. cbn. rewrite negb_false_iff. apply Qle_bool_iff. Qed.

(** ** The block partition *)

Lemma NBlocks_of_Q (N BlockLen BlockHop : Z) :
  0 < BlockHop ->
  NBlocks_of (T:=Q) N BlockLen BlockHop
  = Ok (1 + (N - BlockLen + BlockHop - 1) / BlockHop).
Proof.
  intros HH. unfold NBlocks_of.
  rewrite py_div_Q by (apply inject_Z_nonzero; lia).
  rsimpl. f_equal. apply Qceiling_div. exact HH.
Qed.

Lemma filter_lt_seqZ (n : nat) (m N : Z) :
  filter (fun x => x < N) (seqZ m (Z.of_nat n))
  = seqZ m (Z.min (Z.of_nat n) (N - m)).
Proof.
  revert m. induction n as [|n IH]; intros m.
  - rewrite (seqZ_nil m (Z.min _ _)) by lia. reflexivity.
  - rewrite seqZ_cons by lia.
    replace (Z.pred (Z.of_nat (S n))) with (Z.of_nat n) by lia.
    rewrite filter_cons. destruct (decide (m < N)) as [Hm|Hm].
    + rewrite IH. rewrite (seqZ_cons m (Z.min _ _)) by lia. f_equal. f_equal. lia.
    + rewrite IH. rewrite !seqZ_nil by lia. reflexivity.
Qed.

(** A block is its range of [BlockLen] indices cut at [N]. *)
Lemma thisidxs_clamped (N BlockLen BlockHop k : Z) :
  thisidxs N BlockLen BlockHop k
  = seqZ (k * BlockHop) (Z.min BlockLen (N - k * BlockHop)).
Proof.
  unfold thisidxs. destruct (Z_le_gt_dec 0 BlockLen) as [HL|HL].
  - rewrite <- (Z2Nat.id BlockLen) at 1 by lia. rewrite filter_lt_seqZ. f_equal. lia.
  - rewrite !seqZ_nil by lia. reflexivity.
Qed.

Section Blocks.
Context {T : Type} `{Scalar T} `{Rounding T}.

Lemma block_idxs_lookup (N BlockLen BlockHop : Z) idxs (j : nat) idx :
  block_idxs (T:=T) N BlockLen BlockHop = Ok idxs -> idxs !! j = Some idx ->
  idx = seqZ (Z.of_nat j * BlockHop) (Z.min BlockLen (N - Z.of_nat j * BlockHop)).
Proof.
  unfold block_idxs.
  destruct (NBlocks_of N BlockLen BlockHop) as [NB|e]; [|discriminate].
  rbind. intros [= <-] Hj. rewrite list_lookup_fmap in Hj.
  destruct (seqZ 0 NB !! j) as [z|] eqn:Ez; [|discriminate].
  apply lookup_seqZ in Ez. destruct Ez as [-> _]. cbn in Hj. inversion Hj; subst.
  rewrite thisidxs_clamped. f_equal; f_equal; lia.
Qed.

Lemma block_idxs_NBlocks (N BlockLen BlockHop : Z) idxs :
  block_idxs (T:=T) N BlockLen BlockHop = Ok idxs ->
  exists NB, NBlocks_of (T:=T) N BlockLen BlockHop = Ok NB
             /\ length idxs = Z.to_nat NB.
Proof.
  unfold block_idxs.
  destruct (NBlocks_of N BlockLen BlockHop) as [NB|e]; [|discriminate].
  rbind. intros [= <-]. exists NB. split; [reflexivity|].
  rewrite length_map, length_seqZ. reflexivity.
Qed.

Context `{Roots T}.

(** C9: for block [j] of the KTH cell, with index list [idx] of length
    [blockLen = min(BlockLen, N - j*BlockHop)] (the shortened length, for a
    clamped trailing block), the parameters are [Tau = win/(dim-1)] and
    [dT = (blockLen - dim*Tau)/blockLen], and the block's cloud is the
    Delay Embedder run on the block's rows with these parameters, then
    normalized.  The two conditions say that neither division is by zero
    ([dim <> 1], a non-empty block). *)
Theorem block_params_per_block (N BlockLen BlockHop win dim : Z)
    (idxs : list (list Z)) (j : nat) (idx : list Z) :
  block_idxs (T:=T) N BlockLen BlockHop = Ok idxs -> idxs !! j = Some idx ->
  let blockLen := Z.max 0 (Z.min BlockLen (N - Z.of_nat j * BlockHop)) in
  let Tau := (of_int win / of_int (dim - 1))%num in
  let dT := ((of_int blockLen - of_int dim * Tau) / of_int blockLen)%num in
  feqb (of_int (dim - 1)) fzero = false ->
  feqb (of_int blockLen) fzero = false ->
  Z.of_nat (length idx) = blockLen
  /\ block_params win dim idx = Ok (Tau, dT)
  /\ forall X : matrix T,
       block_cloud win dim X idx
       = (Xb ← take_rows X idx;
          XS ← getSlidingWindowVideo Xb dim Tau dT;
          Ok (normalize_cloud XS)).
Proof.
  intros Hidxs Hj blockLen Tau dT Hdim Hlen.
  assert (Z.of_nat (length idx) = blockLen) as Hl.
  { rewrite (block_idxs_lookup _ _ _ _ _ _ Hidxs Hj), length_seqZ.
    unfold blockLen. lia. }
  assert (block_params win dim idx = Ok (Tau, dT)) as Hp.
  { unfold block_params. rewrite py_div_ok by exact Hdim. rbind.
    rewrite Hl. rewrite py_div_ok by exact Hlen. reflexivity. }
  split; [exact Hl|]. split; [exact Hp|].
  intros X. unfold block_cloud. rewrite Hp. reflexivity.
Qed.

End Blocks.

(** C5, as amended: for [N >= BlockLen] and [BlockHop > 0] there are exactly
    [NBlocks = ceil(1 + (N - BlockLen)/BlockHop)] blocks, block [k] is the
    range [k*BlockHop .. k*BlockHop + BlockLen - 1] cut at [N], and no block
    holds an index outside [0, N); when moreover [BlockHop <= BlockLen], the
    blocks cover [0, N). *)
Theorem block_partition_covers (N BlockLen BlockHop : Z) :
  BlockLen <= N -> 0 < BlockHop ->
  exists NBlocks idxs,
    NBlocks_of (T:=Q) N BlockLen BlockHop = Ok NBlocks
    /\ (inject_Z NBlocks - 1 < 1 + inject_Z (N - BlockLen) / inject_Z BlockHop
        /\ 1 + inject_Z (N - BlockLen) / inject_Z BlockHop <= inject_Z NBlocks)%Q
    /\ block_idxs (T:=Q) N BlockLen BlockHop = Ok idxs
    /\ Z.of_nat (length idxs) = NBlocks
    /\ (forall (k : nat) idx, idxs !! k = Some idx ->
          idx = seqZ (Z.of_nat k * BlockHop)
                     (Z.min BlockLen (N - Z.of_nat k * BlockHop)))
    /\ (forall idx x, idx ∈ idxs -> x ∈ idx -> 0 <= x < N)
    /\ (BlockHop <= BlockLen ->
        forall x, 0 <= x < N ->
          exists (k : nat) idx, idxs !! k = Some idx /\ x ∈ idx).
Proof.
  intros HN HH.
  pose proof (NBlocks_of_Q N BlockLen BlockHop HH) as HNB.
  set (c := (N - BlockLen + BlockHop - 1) / BlockHop) in *.
  pose proof (Z.div_mod (N - BlockLen + BlockHop - 1) BlockHop ltac:(lia)) as Hd.
  pose proof (Z.mod_pos_bound (N - BlockLen + BlockHop - 1) BlockHop HH) as Hm.
  fold c in Hd.
  assert (0 <= c) as Hc by (apply Z.div_pos; lia).
  assert (N - BlockLen <= c * BlockHop) as Hreach by nia.
  assert (block_idxs (T:=Q) N BlockLen BlockHop
          = Ok (map (thisidxs N BlockLen BlockHop) (seqZ 0 (1 + c)))) as Hidxs.
  { unfold block_idxs. rewrite HNB. reflexivity. }
  exists (1 + c), (map (thisidxs N BlockLen BlockHop) (seqZ 0 (1 + c))).
  split; [exact HNB|]. split.
  { unfold NBlocks_of in HNB. rewrite py_div_Q in HNB by (apply inject_Z_nonzero; lia).
    rsimpl. cbn in HNB. inversion HNB as [HNB'].
    rewrite HNB'. rewrite <- HNB' at 1 2.
    pose proof (Qle_ceiling (inject_Z 1 + inject_Z (N - BlockLen) / inject_Z BlockHop)) as A.
    pose proof (Qceiling_lt (inject_Z 1 + inject_Z (N - BlockLen) / inject_Z BlockHop)) as B.
    rewrite inject_Z_sub in B. change (inject_Z 1) with 1%Q in *.
    split; [exact B|exact A]. }
  split; [exact Hidxs|].
  split. { rewrite length_map, length_seqZ. lia. }
  split. { intros k idx Hk. exact (block_idxs_lookup _ _ _ _ _ _ Hidxs Hk). }
  split.
  - intros idx x Hidx Hx.
    apply list_elem_of_lookup in Hidx. destruct Hidx as [k Hk].
    rewrite (block_idxs_lookup _ _ _ _ _ _ Hidxs Hk) in Hx.
    apply elem_of_seqZ in Hx. nia.
  - intros HL x Hx.
    set (k := Z.min (x / BlockHop) c).
    pose proof (Z.div_mod x BlockHop ltac:(lia)) as Hxd.
    pose proof (Z.mod_pos_bound x BlockHop HH) as Hxm.
    assert (0 <= x / BlockHop) by (apply Z.div_pos; lia).
    exists (Z.to_nat k), (thisidxs N BlockLen BlockHop k).
    split.
    + rewrite list_lookup_fmap.
      replace (seqZ 0 (1 + c) !! Z.to_nat k) with (Some k); [reflexivity|].
      symmetry. apply lookup_seqZ. lia.
    + rewrite thisidxs_clamped. apply elem_of_seqZ. nia.
Qed.

(** With the notebook's blocks of 160 frames every 80, a series of 400
    frames is cut into 4 blocks that cover it. *)
Lemma block_partition_covers_witness :
  160 <= 400 /\ 0 < 80 /\
  exists idxs,
    block_idxs (T:=Q) 400 160 80 = Ok idxs
    /\ Z.of_nat (length idxs) = 4
    /\ forall x, 0 <= x < 400 -> exists (k : nat) idx, idxs !! k = Some idx /\ x ∈ idx.
Proof.
  split; [lia|]. split; [lia|].
  destruct (block_partition_covers 400 160 80) as (NB & idxs & HNB & _ & Hidxs & Hlen & _ & _ & Hcov);
    [lia|lia|].
  exists idxs. split; [exact Hidxs|]. split.
  - rewrite Hlen. rewrite NBlocks_of_Q in HNB by lia. inversion HNB. reflexivity.
  - apply Hcov. lia.
Defined.

(** C5, as stated, fails when the hop exceeds the block length: with
    [N = 10], [BlockLen = 2], [BlockHop = 5] the blocks are [0, 1], [5, 6]
    and an empty one, and frame 3 is in none of them. *)
Lemma block_partition_gap :
  2 <= 10 /\ 0 < 5 /\
  block_idxs (T:=Q) 10 2 5 = Ok [[0; 1]; [5; 6]; []] /\
  ~ (exists idx, idx ∈ [[0; 1]; [5; 6]; []] /\ 3 ∈ idx).
Proof.
  split; [lia|]. split; [lia|]. split; [reflexivity|].
  intros [idx [Hidx Hx]].
  repeat (apply elem_of_cons in Hidx; destruct Hidx as [->|Hidx]);
    [| | |apply elem_of_nil in Hidx; exact Hidx];
    repeat (apply elem_of_cons in Hx; destruct Hx as [Hx|Hx]; [discriminate|]);
    apply elem_of_nil in Hx; exact Hx.
Qed.

(** A video of 200 frames: the second block has 120 frames, and its
    parameters are computed from that length, in binary64. *)
Lemma block_params_per_block_witness :
  block_idxs (T:=PrimFloat.float) 200 160 80 = Ok [seqZ 0 160; seqZ 80 120]
  /\ Z.of_nat (length (seqZ 80 120)) = 120
  /\ block_params (T:=PrimFloat.float) 20 20 (seqZ 80 120)
     = Ok ((of_int 20 / of_int 19)%num,
           ((of_int 120 - of_int 20 * (of_int 20 / of_int 19)) / of_int 120)%num).
Proof.
  assert (block_idxs (T:=PrimFloat.float) 200 160 80 = Ok [seqZ 0 160; seqZ 80 120])
    as Hidxs by (vm_compute; reflexivity).
  split; [exact Hidxs|].
  destruct (block_params_per_block (T:=PrimFloat.float) 200 160 80 20 20
              [seqZ 0 160; seqZ 80 120] 1 (seqZ 80 120) Hidxs eq_refl)
    as (Hlen & Hparams & _).
  - vm_compute. reflexivity.
  - vm_compute. reflexivity.
  - split; [exact Hlen|exact Hparams].
Defined.

(** ** The sliding window embedding *)

Lemma Forall2_concat_map {A B C} (R : B -> C -> Prop)
    (g : A -> list B) (h : A -> list C) (l : list A) :
  (forall k, k ∈ l -> Forall2 R (g k) (h k)) ->
  Forall2 R (concat (map g l)) (concat (map h l)).
Proof.
  induction l as [|x l IH]; intros Hl; cbn; [constructor|].
  apply Forall2_app.
  - apply Hl, elem_of_cons. now left.
  - apply IH. intros k Hk. apply Hl, elem_of_cons. now right.
Qed.

Lemma Forall2_map_same {A B C} (R : B -> C -> Prop)
    (g : A -> B) (h : A -> C) (l : list A) :
  (forall k, k ∈ l -> R (g k) (h k)) -> Forall2 R (map g l) (map h l).
Proof.
  induction l as [|x l IH]; intros Hl; cbn; constructor.
  - apply Hl, elem_of_cons. now left.
  - apply IH. intros k Hk. apply Hl, elem_of_cons. now right.
Qed.

Lemma length_concat_map_const {A B} (g : A -> list B) (l : list A) (n : nat) :
  (forall k, length (g k) = n) -> length (concat (map g l)) = (length l * n)%nat.
Proof.
  intros Hg. induction l as [|x l IH]; [reflexivity|].
  cbn. rewrite length_app, Hg, IH. reflexivity.
Qed.

(** The interpolant over the grid [s, s+1, ..., s+n-1] with the frames of
    [I] as grid rows is the linear interpolation between the two frames
    around [t]. *)
Lemma interp_time_grid (I : matrix Q) (t : Q) (p : nat) (n : nat) (s : Z) :
  s <= Qfloor t -> Qfloor t + 2 <= s + Z.of_nat n ->
  (interp_time (map inject_Z (seqZ s (Z.of_nat n)))
               (map (frame_row I) (seqZ s (Z.of_nat n))) t p
   == lerp_frames I t p)%Q.
Proof.
  revert s. induction n as [|n IH]; intros s Hlo Hhi; [lia|].
  destruct n as [|n]; [lia|].
  rewrite (seqZ_cons s) by lia. rewrite (seqZ_cons (Z.succ s)) by lia.
  cbn [map interp_time].
  pose proof (Qfloor_le t) as Hf1. pose proof (Qlt_floor t) as Hf2.
  rewrite inject_Z_plus in Hf2. change (inject_Z 1) with 1%Q in Hf2.
  destruct (fltb t (inject_Z (Z.succ s))) eqn:E.
  - apply fltb_Q_lt in E.
    assert (Qfloor t = s) as Hs.
    { apply Qfloor_intro.
      - rewrite Zle_Qle in Hlo. lraQ.
      - unfold Z.succ in E. rewrite inject_Z_plus in E. exact E. }
    unfold lerp_frames. cbn zeta. rewrite Hs.
    unfold frame_entry. unfold Z.succ. rewrite inject_Z_plus.
    change (inject_Z 1) with 1%Q.
    cbn [fadd fsub fmul fdiv fzero Q_scalar].
    field. lraQ.
  - apply fltb_Q_ge in E.
    assert (s + 1 <= Qfloor t) as Hs.
    { apply Qfloor_resp_le in E. rewrite Qfloor_Z in E. lia. }
    specialize (IH (Z.succ s)).
    replace (Z.pred (Z.of_nat (S (S n)))) with (Z.of_nat (S n)) by lia.
    replace (Z.pred (Z.of_nat (S n))) with (Z.of_nat n) in * by lia.
    rewrite (seqZ_cons (Z.succ s) (Z.of_nat (S n))) in IH by lia.
    replace (Z.pred (Z.of_nat (S n))) with (Z.of_nat n) in * by lia.
    cbn [map] in IH. apply IH; lia.
Qed.

Lemma take_rows_seqZ (I : matrix Q) (s len : Z) :
  0 <= s -> s + len <= Z.of_nat (length I) ->
  take_rows I (seqZ s len) = Ok (map (frame_row I) (seqZ s len)).
Proof.
  intros Hs Hl. unfold take_rows. apply mapM_Ok.
  intros j Hj. apply elem_of_seqZ in Hj.
  apply py_getitem_in_range. lia.
Qed.

Lemma sample_time_mono (Tau dT : Q) (i : nat) (k k' : Z) :
  (0 <= Tau)%Q -> k <= k' -> (sample_time Tau dT i k <= sample_time Tau dT i k')%Q.
Proof.
  intros HT Hk. unfold sample_time.
  apply Qplus_le_r. rewrite Zle_Qle in Hk.
  rewrite !(Qmult_comm Tau). apply Qmult_le_compat_r; assumption.
Qed.

Lemma sample_time_nonneg (Tau dT : Q) (i : nat) (k : Z) :
  (0 <= Tau)%Q -> (0 <= dT)%Q -> 0 <= k -> (0 <= sample_time Tau dT i k)%Q.
Proof.
  intros HT HdT Hk. unfold sample_time.
  assert (0 <= inject_Z (Z.of_nat i))%Q as Hi by (rewrite <- (Zle_Qle 0); lia).
  assert (0 <= inject_Z k)%Q as Hk' by (rewrite <- (Zle_Qle 0); lia).
  pose proof (Qmult_le_0_compat _ _ HdT Hi).
  pose proof (Qmult_le_0_compat _ _ HT Hk'). lraQ.
Qed.

(** Every sample time of a window lies at least two frames inside the
    slice [start .. end]. *)
Lemma window_bounds (dim : Z) (Tau dT : Q) (i : nat) (k : Z) :
  (0 <= Tau)%Q -> (0 <= dT)%Q -> 0 <= k < dim ->
  0 <= window_start Tau dT i
  /\ window_start Tau dT i <= Qfloor (sample_time Tau dT i k)
  /\ Qfloor (sample_time Tau dT i k) + 2 <= window_end dim Tau dT i.
Proof.
  intros HT HdT Hk. unfold window_start, window_end.
  pose proof (sample_time_nonneg Tau dT i 0 HT HdT ltac:(lia)) as H0.
  pose proof (sample_time_mono Tau dT i 0 k HT ltac:(lia)) as H1.
  pose proof (sample_time_mono Tau dT i k (dim - 1) HT ltac:(lia)) as H2.
  apply Qfloor_resp_le in H0, H1, H2. change (Qfloor 0%Q) with 0%Z in H0.
  pose proof (Qle_floor_ceiling (sample_time Tau dT i (dim - 1))) as H3.
  rewrite <- Zle_Qle in H3. lia.
Qed.

Lemma body_row_interp (I : matrix Q) (dim : Z) (Tau dT : Q) (i : nat) :
  (0 <= Tau)%Q -> (0 <= dT)%Q ->
  Forall2 Qeq (body_row I dim Tau dT i) (window_row I dim Tau dT i).
Proof.
  intros HT HdT. unfold body_row, window_row, interp2d, idxx_of.
  cbn zeta. rewrite map_map.
  apply Forall2_concat_map. intros k Hk.
  apply Forall2_map_same. intros p _.
  unfold np_arange in Hk. apply elem_of_seqZ in Hk.
  destruct (window_bounds dim Tau dT i k HT HdT ltac:(lia)) as (B0 & B1 & B2).
  set (s := window_start Tau dT i) in *.
  set (e := window_end dim Tau dT i) in *.
  rewrite <- (Z2Nat.id (e + 1 - s)) by lia.
  apply (interp_time_grid I (sample_time Tau dT i k) (Z.to_nat p)
           (Z.to_nat (e + 1 - s)) s); lia.
Qed.

Lemma sliding_step_break (I : matrix Q) dim Tau dT i range X :
  0 < dim -> Z.of_nat (length I) <= window_end dim Tau dT i ->
  sliding_loop I dim Tau dT (i :: range) X = Ok (take i X).
Proof.
  intros Hd Hend. cbn [sliding_loop].
  rewrite idxx_first by exact Hd. rsimpl. rewrite idxx_last by exact Hd. rsimpl.
  change (Qceiling _ + 2) with (window_end dim Tau dT i).
  destruct (Z.leb_spec (Z.of_nat (length I)) (window_end dim Tau dT i));
    [reflexivity|lia].
Qed.

Lemma sliding_step_fill (I : matrix Q) dim Tau dT i range X :
  0 < dim -> 0 <= window_start Tau dT i ->
  window_start Tau dT i <= window_end dim Tau dT i + 1 ->
  window_end dim Tau dT i < Z.of_nat (length I) ->
  sliding_loop I dim Tau dT (i :: range) X
  = sliding_loop I dim Tau dT range (<[i := body_row I dim Tau dT i]> X).
Proof.
  intros Hd Hs Hse Hend. cbn [sliding_loop].
  rewrite idxx_first by exact Hd. rsimpl. rewrite idxx_last by exact Hd. rsimpl.
  change (Qceiling _ + 2) with (window_end dim Tau dT i).
  change (Qfloor _) with (window_start Tau dT i).
  destruct (Z.leb_spec (Z.of_nat (length I)) (window_end dim Tau dT i)); [lia|].
  rewrite py_slice_arange by lia.
  rewrite take_rows_seqZ by lia. reflexivity.
Qed.

Section Loop.
Variables (I : matrix Q) (dim : Z) (Tau dT : Q).
Hypothesis Hdim : 0 < dim.
Hypothesis HTau : (0 <= Tau)%Q.
Hypothesis HdT : (0 <= dT)%Q.

(** The loop over the windows [a, a+1, ..., a+n-1]: it fills the rows up
    to the first window [m] whose slice does not fit, and cuts [X] there. *)
Lemma sliding_loop_run (n a : nat) (X : matrix Q) :
  (a + n <= length X)%nat ->
  exists X' m,
    sliding_loop I dim Tau dT (seq a n) X = Ok X'
    /\ (a <= m <= a + n)%nat
    /\ (forall i, (a <= i < m)%nat ->
          window_end dim Tau dT i < Z.of_nat (length I))
    /\ ((m < a + n)%nat -> Z.of_nat (length I) <= window_end dim Tau dT m)
    /\ ((m = a + n)%nat /\ length X' = length X
        \/ (m < a + n)%nat /\ length X' = m)
    /\ (forall i, (i < a)%nat -> (i < length X')%nat -> X' !! i = X !! i)
    /\ (forall i, (a <= i < m)%nat -> X' !! i = Some (body_row I dim Tau dT i)).
Proof.
  revert a X. induction n as [|n IH]; intros a X Hlen.
  - exists X, a. cbn. repeat split; try lia.
  - cbn [seq].
    destruct (Z_lt_le_dec (window_end dim Tau dT a) (Z.of_nat (length I)))
      as [Hgood|Hbad].
    + destruct (window_bounds dim Tau dT a 0 HTau HdT ltac:(lia)) as (B0 & B1 & B2).
      rewrite sliding_step_fill by lia.
      destruct (IH (S a) (<[a := body_row I dim Tau dT a]> X))
        as (X' & m & Hrun & Hm & Hg & Hb & Hl & Hlow & Hrows).
      { rewrite length_insert. lia. }
      rewrite length_insert in Hl.
      exists X', m. split; [exact Hrun|]. split; [lia|]. split.
      { intros i Hi. destruct (decide (i = a)) as [->|Hne]; [exact Hgood|apply Hg; lia]. }
      split. { intros Hlt. apply Hb. lia. }
      split. { destruct Hl as [[? ?]|[? ?]]; [left|right]; lia. }
      split.
      { intros i Hi Hi'. rewrite Hlow by lia. apply list_lookup_insert_ne. lia. }
      intros i Hi. destruct (decide (i = a)) as [->|Hne]; [|apply Hrows; lia].
      rewrite Hlow by (destruct Hl as [[? ?]|[? ?]]; lia).
      apply list_lookup_insert_eq. lia.
    + rewrite sliding_step_break by assumption.
      exists (take a X), a. split; [reflexivity|]. split; [lia|].
      split; [intros; lia|]. split; [intros; exact Hbad|]. split.
      { right. split; [lia|]. rewrite length_take. lia. }
      split; [|intros; lia].
      intros i Hi _. apply lookup_take_lt. exact Hi.
Qed.
End Loop.

Lemma getSlidingWindowVideo_unfold (I : matrix Q) (dim : Z) (Tau dT : Q) :
  ~ (dT == 0)%Q ->
  getSlidingWindowVideo I dim Tau dT
  = (X ← np_zeros2 (NumWindows (Z.of_nat (length I)) dim Tau dT) (dim * shape1 I);
     sliding_loop I dim Tau dT
       (seq 0 (Z.to_nat (NumWindows (Z.of_nat (length I)) dim Tau dT))) X).
Proof.
  intros HdT. unfold getSlidingWindowVideo.
  rewrite py_div_Q by exact HdT. rsimpl. reflexivity.
Qed.

(** *** The loop, for every carrier *)

Lemma py_slice_elem {A} (l : list A) (lo hi : Z) (x : A) :
  x ∈ py_slice l lo hi -> x ∈ l.
Proof.
  unfold py_slice. intros Hx.
  apply list_elem_of_lookup in Hx. destruct Hx as [k Hk].
  apply lookup_take_Some in Hk. destruct Hk as [Hk _].
  rewrite lookup_drop in Hk. eapply list_elem_of_lookup_2. exact Hk.
Qed.

Section GenericLoop.
Context {T : Type} `{Scalar T} `{Rounding T}.

(** A slice of [idx = np.arange(N)] only holds frame indices, so
    [I[idx[start:end+1], :]] never raises. *)
Lemma take_rows_slice (I : matrix T) (lo hi : Z) :
  take_rows I (py_slice (np_arange (Z.of_nat (length I))) lo hi)
  = Ok (map (frame I) (py_slice (np_arange (Z.of_nat (length I))) lo hi)).
Proof.
  unfold take_rows. apply mapM_Ok. intros j Hj.
  apply py_slice_elem in Hj. unfold np_arange in Hj. apply elem_of_seqZ in Hj.
  apply py_getitem_in_range. lia.
Qed.

Lemma window_flat_length (I : matrix T) (dim : Z) (Tau dT : T) (i : nat) (s e : Z) :
  length (window_flat I dim Tau dT i s e) = (Z.to_nat dim * Z.to_nat (shape1 I))%nat.
Proof.
  unfold window_flat, np_arange. cbn zeta.
  rewrite (length_concat_map_const _ _ (Z.to_nat (shape1 I))).
  - rewrite length_seqZ. reflexivity.
  - intros k. rewrite length_map, length_seqZ. reflexivity.
Qed.

(** One pass through the loop body, for a window whose sample times can
    be converted to integers. *)
Lemma sliding_step (I : matrix T) (dim : Z) (Tau dT : T) (i : nat)
    (range : list nat) (X : matrix T) (s e : Z) :
  0 < dim -> slice_start Tau dT i = Ok s -> slice_end dim Tau dT i = Ok e ->
  sliding_loop I dim Tau dT (i :: range) X
  = if Z.of_nat (length I) <=? e then Ok (take i X)
    else sliding_loop I dim Tau dT range (<[i := window_flat I dim Tau dT i s e]> X).
Proof.
  intros Hd Hs He. cbn [sliding_loop].
  rewrite idxx_first by exact Hd. rbind.
  unfold slice_start, sample_of in Hs. rewrite Hs. rbind.
  rewrite idxx_last by exact Hd. rbind.
  unfold slice_end, sample_of in He.
  destruct (py_int_ceil _) as [c|] eqn:Ec; [|discriminate].
  cbn in He. inversion He; subst e. rbind.
  destruct (Z.of_nat (length I) <=? c + 2); [reflexivity|].
  rewrite take_rows_slice. rbind.
  unfold window_flat, interp2d, idxx_of, sample_of. cbn zeta.
  rewrite map_map. reflexivity.
Qed.

Section Run.
Variables (I : matrix T) (dim : Z) (Tau dT : T).
Hypothesis Hdim : 0 < dim.

(** The loop over the windows [a, ..., a+n-1]: it writes the rows of the
    windows before the first one, [m], whose slice end is not a frame
    index, and cuts the array there. *)
Lemma sliding_loop_cut (n a : nat) (X : matrix T) :
  (forall i, (a <= i < a + n)%nat ->
     exists s e, slice_start Tau dT i = Ok s /\ slice_end dim Tau dT i = Ok e) ->
  (a + n <= length X)%nat ->
  exists X' m,
    sliding_loop I dim Tau dT (seq a n) X = Ok X'
    /\ (a <= m <= a + n)%nat
    /\ (forall i e, (a <= i < m)%nat -> slice_end dim Tau dT i = Ok e ->
          e < Z.of_nat (length I))
    /\ ((m < a + n)%nat ->
          exists e, slice_end dim Tau dT m = Ok e /\ Z.of_nat (length I) <= e)
    /\ ((m = a + n)%nat /\ length X' = length X
        \/ (m < a + n)%nat /\ length X' = m)
    /\ (forall i, (i < a)%nat -> (i < length X')%nat -> X' !! i = X !! i)
    /\ (forall i, (a <= i < m)%nat ->
          exists s e, slice_start Tau dT i = Ok s /\ slice_end dim Tau dT i = Ok e
                      /\ X' !! i = Some (window_flat I dim Tau dT i s e)).
Proof.
  revert a X. induction n as [|n IH]; intros a X Hfin Hlen.
  - exists X, a. cbn. split; [reflexivity|]. split; [lia|].
    split; [intros; lia|]. split; [intros; lia|]. split; [left; lia|].
    split; [reflexivity|]. intros; lia.
  - cbn [seq].
    destruct (Hfin a ltac:(lia)) as (s & e & Hs & He).
    rewrite (sliding_step I dim Tau dT a (seq (S a) n) X s e Hdim Hs He).
    destruct (Z.leb_spec (Z.of_nat (length I)) e) as [Hbad|Hgood].
    + exists (take a X), a. split; [reflexivity|]. split; [lia|].
      split; [intros; lia|]. split; [intros; exists e; split; assumption|]. split.
      { right. split; [lia|]. rewrite length_take. lia. }
      split; [|intros; lia].
      intros i Hi _. apply lookup_take_lt. exact Hi.
    + destruct (IH (S a) (<[a := window_flat I dim Tau dT a s e]> X))
        as (X' & m & Hrun & Hm & Hg & Hb & Hl & Hlow & Hrows).
      { intros i Hi. apply Hfin. lia. }
      { rewrite length_insert. lia. }
      rewrite length_insert in Hl.
      exists X', m. split; [exact Hrun|]. split; [lia|]. split.
      { intros i e' Hi He'. destruct (decide (i = a)) as [->|Hne].
        - rewrite He in He'. inversion He'; subst. exact Hgood.
        - apply (Hg i); [lia|exact He']. }
      split. { intros Hlt. apply Hb. lia. }
      split. { destruct Hl as [[? ?]|[? ?]]; [left|right]; lia. }
      split.
      { intros i Hi Hi'. rewrite Hlow by lia. apply list_lookup_insert_ne. lia. }
      intros i Hi. destruct (decide (i = a)) as [->|Hne]; [|apply Hrows; lia].
      exists s, e. split; [exact Hs|]. split; [exact He|].
      rewrite Hlow by (destruct Hl as [[? ?]|[? ?]]; lia).
      apply list_lookup_insert_eq. lia.
Qed.
End Run.

(** A window count that is not positive: the array is empty, or cannot be
    allocated. *)
Lemma getSlidingWindowVideo_no_window (I : matrix T) (dim : Z) (Tau dT : T) (NW : Z) :
  0 <= dim ->
  NWindows_of (Z.of_nat (length I)) dim Tau dT = Ok NW -> NW <= 0 ->
  getSlidingWindowVideo I dim Tau dT
  = if NW <? 0 then Raise ValueError else Ok [].
Proof.
  intros Hdim HNW Hle.
  unfold NWindows_of in HNW. unfold getSlidingWindowVideo.
  destruct (py_div _ dT) as [q|] eqn:Eq; [|discriminate]. rbind.
  cbn [mbind result_bind] in HNW. rewrite HNW. rbind.
  unfold np_zeros2. pose proof (shape1_nonneg I) as HP.
  destruct (Z.ltb_spec NW 0) as [Hneg|Hzero]; [reflexivity|].
  assert (NW = 0) as -> by lia.
  replace (dim * shape1 I <? 0) with false by (symmetry; apply Z.ltb_ge; nia).
  reflexivity.
Qed.

(** C1, as amended: on every carrier, so in binary64, for [dim >= 1], a
    window count [NWindows = int(floor((N - dim*Tau)/dT))] computed as
    [NW >= 0] and sample times that [int] accepts,
    [getSlidingWindowVideo] returns a cloud [X] without error; [X] holds
    the windows before the first window [i] whose slice end
    [ceil(dT*i + Tau*(dim-1)) + 2], computed on the carrier, is not below
    [N], and all [NW] windows when there is none.  Row [i], when present,
    has [dim*P] entries, the row-major flattening of the linear
    interpolation in time, over the frames [start .. end], of [I] at the
    times [dT*i + Tau*k], [k = 0..dim-1]. *)
Theorem getSlidingWindowVideo_rows (I : matrix T) (dim : Z) (Tau dT : T) (NW : Z) :
  0 < dim ->
  NWindows_of (Z.of_nat (length I)) dim Tau dT = Ok NW -> 0 <= NW ->
  (forall i, (i < Z.to_nat NW)%nat ->
     exists s e, slice_start Tau dT i = Ok s /\ slice_end dim Tau dT i = Ok e) ->
  exists X,
    getSlidingWindowVideo I dim Tau dT = Ok X
    /\ Z.of_nat (length X) <= NW
    /\ (forall i e, (i < length X)%nat -> slice_end dim Tau dT i = Ok e ->
          e < Z.of_nat (length I))
    /\ (Z.of_nat (length X) < NW ->
          exists e, slice_end dim Tau dT (length X) = Ok e
                    /\ Z.of_nat (length I) <= e)
    /\ (forall i row, X !! i = Some row ->
          Z.of_nat (length row) = dim * shape1 I
          /\ exists s e, slice_start Tau dT i = Ok s
                         /\ slice_end dim Tau dT i = Ok e
                         /\ row = window_flat I dim Tau dT i s e).
Proof.
  intros Hdim HNW Hpos Hfin.
  unfold NWindows_of in HNW. unfold getSlidingWindowVideo.
  destruct (py_div _ dT) as [q|] eqn:Eq; [|discriminate]. rbind.
  cbn [mbind result_bind] in HNW. rewrite HNW. rbind.
  unfold np_zeros2. pose proof (shape1_nonneg I) as HP.
  replace ((NW <? 0) || (dim * shape1 I <? 0)) with false.
  2:{ symmetry. apply orb_false_iff. split; apply Z.ltb_ge; nia. }
  rbind.
  set (X0 := replicate (Z.to_nat NW) (replicate (Z.to_nat (dim * shape1 I)) fzero)).
  destruct (sliding_loop_cut I dim Tau dT Hdim (Z.to_nat NW) 0%nat X0)
    as (X & m & Hrun & Hm & Hgood & Hbad & Hlen & _ & Hrows).
  { intros i Hi. apply Hfin. lia. }
  { unfold X0. rewrite length_replicate. lia. }
  assert (length X = m) as Hlen'.
  { unfold X0 in Hlen. rewrite length_replicate in Hlen. lia. }
  exists X. split; [exact Hrun|]. split; [lia|]. split.
  { intros i e Hi. apply Hgood. lia. }
  split. { intros Hlt. rewrite Hlen'. apply Hbad. lia. }
  intros i row Hi.
  assert (i < m)%nat as Him by (rewrite <- Hlen'; eapply lookup_lt_Some; eauto).
  destruct (Hrows i ltac:(lia)) as (s & e & Hs & He & Hrow).
  rewrite Hrow in Hi. inversion Hi; subst row. split.
  - rewrite window_flat_length. nia.
  - exists s, e. auto.
Qed.

End GenericLoop.

(** *** The embedding on doubles *)

Section Binary64Windows.
Import PrimFloat.

(** Five frames, two samples 0.7 apart, a window every 0.1: 36 windows
    are counted on doubles, and window 14 is the first whose slice ends at
    frame 5. *)
Lemma getSlidingWindowVideo_rows_witness :
  0 < 2
  /\ NWindows_of (Z.of_nat (length I5f)) 2 c07 tenth = Ok 36
  /\ slice_end 2 c07 tenth 13 = Ok 4
  /\ slice_end 2 c07 tenth 14 = Ok 5
  /\ exists X,
       getSlidingWindowVideo I5f 2 c07 tenth = Ok X
       /\ Z.of_nat (length X) <= 36
       /\ (forall i e, (i < length X)%nat -> slice_end 2 c07 tenth i = Ok e ->
             e < Z.of_nat (length I5f))
       /\ (Z.of_nat (length X) < 36 ->
             exists e, slice_end 2 c07 tenth (length X) = Ok e
                       /\ Z.of_nat (length I5f) <= e)
       /\ (forall i row, X !! i = Some row ->
             Z.of_nat (length row) = 2 * shape1 I5f
             /\ exists s e, slice_start c07 tenth i = Ok s
                            /\ slice_end 2 c07 tenth i = Ok e
                            /\ row = window_flat I5f 2 c07 tenth i s e).
Proof.
  assert (NWindows_of (Z.of_nat (length I5f)) 2 c07 tenth = Ok 36) as HNW
    by (vm_compute; reflexivity).
  split; [lia|]. split; [exact HNW|].
  split; [vm_compute; reflexivity|]. split; [vm_compute; reflexivity|].
  apply (getSlidingWindowVideo_rows I5f 2 c07 tenth 36 ltac:(lia) HNW ltac:(lia)).
  intros i Hi. change (Z.to_nat 36) with 36%nat in Hi.
  do 36 (destruct i as [|i]; [eexists _, _; split; vm_compute; reflexivity|]).
  lia.
Defined.

(** What the code returns on this input: 14 rows. *)
Example getSlidingWindowVideo_tenths :
  (X ← getSlidingWindowVideo I5f 2 c07 tenth; Ok (length X)) = Ok 14%nat.
Proof. vm_compute. reflexivity. Qed.

(** C1, as stated, fails: with five frames, two samples per window one
    frame apart and one window per frame, three windows are counted and
    the third one samples the frames 2 and 3, which exist; it is dropped
    all the same, because its slice would end at frame 3 + 2 = 5. *)
Lemma getSlidingWindowVideo_drops_window :
  fltb (of_int 2 * 1%float)%num (of_int (Z.of_nat (length I5f))) = true
  /\ NWindows_of (Z.of_nat (length I5f)) 2 1%float 1%float = Ok 3
  /\ py_int_floor (sample_of 1%float 1%float 2 0) = Ok 2
  /\ py_int_ceil (sample_of 1%float 1%float 2 (2 - 1)) = Ok 3
  /\ 3 < Z.of_nat (length I5f)
  /\ getSlidingWindowVideo I5f 2 1%float 1%float
     = Ok [[0; 10; 1; 20]; [1; 20; 2; 30]]%float.
Proof. repeat split; vm_compute; reflexivity. Qed.

(** In binary64, zero divided by a number that is not zero is a zero, and
    its floor is 0. *)
Lemma floor_zero_div (d dT : float) :
  eqb d zero = true -> eqb dT zero = false -> is_nan dT = false ->
  float_floor (div d dT) = Some 0.
Proof.
  unfold is_nan, float_floor.
  rewrite !FloatAxioms.eqb_spec, FloatAxioms.div_spec.
  change (FloatOps.Prim2SF zero) with (SpecFloat.S754_zero false).
  destruct (FloatOps.Prim2SF d) as [sd|sd| |sd md ed];
    destruct (FloatOps.Prim2SF dT) as [st|st| |st mt et];
    cbn; try destruct sd; try destruct st; cbn; try discriminate; try reflexivity.
Qed.

(** C2, as amended: in binary64, with [dim >= 0], the embedder returns an
    empty cloud, without error, when the difference [N - dim*Tau] is
    computed as 0 and [dT] is a number other than 0; in general it
    returns the empty cloud when the window count
    [int(floor((N - dim*Tau)/dT))] it computes is 0, and allocating the
    cloud raises [ValueError] when that count is negative. *)
Theorem getSlidingWindowVideo_too_short (I : matrix float) (dim : Z) (Tau dT : float) :
  0 <= dim ->
  (eqb (of_int (Z.of_nat (length I)) - of_int dim * Tau)%num zero = true ->
   eqb dT zero = false -> is_nan dT = false ->
   getSlidingWindowVideo I dim Tau dT = Ok [])
  /\ (forall NW, NWindows_of (Z.of_nat (length I)) dim Tau dT = Ok NW -> NW <= 0 ->
        getSlidingWindowVideo I dim Tau dT
        = if NW <? 0 then Raise ValueError else Ok []).
Proof.
  intros Hdim. split.
  - intros Hd HdT Hnan.
    rewrite (getSlidingWindowVideo_no_window I dim Tau dT 0 Hdim); [reflexivity| |lia].
    unfold NWindows_of, py_div. cbn [feqb fzero float_scalar]. rewrite HdT. rbind.
    unfold py_int_floor. cbn [floor_int float_rounding fdiv float_scalar].
    rewrite (floor_zero_div _ dT Hd HdT Hnan). reflexivity.
  - intros NW. apply getSlidingWindowVideo_no_window. exact Hdim.
Qed.

(** One frame and ten samples 0.1 apart: the product is rounded to 1, the
    difference is 0 and the cloud is empty.  Seven frames and 25 samples
    0.28 apart: the product is rounded to the double above 7, the count
    is -1 and the allocation raises. *)
Lemma getSlidingWindowVideo_too_short_witness :
  0 <= 10 /\ 0 <= 25
  /\ eqb (of_int (Z.of_nat (length [[0; 0]]%float)) - of_int 10 * tenth)%num zero = true
  /\ getSlidingWindowVideo [[0; 0]]%float 10 tenth 1%float = Ok []
  /\ NWindows_of (Z.of_nat (length (replicate 7 [0; 0]%float))) 25 c028 1%float = Ok (-1)
  /\ getSlidingWindowVideo (replicate 7 [0; 0]%float) 25 c028 1%float = Raise ValueError.
Proof.
  split; [lia|]. split; [lia|]. split; [vm_compute; reflexivity|]. split.
  - apply (getSlidingWindowVideo_too_short [[0; 0]]%float 10 tenth 1%float); [lia| | |];
      vm_compute; reflexivity.
  - assert (NWindows_of (Z.of_nat (length (replicate 7 [0; 0]%float))) 25 c028 1%float
            = Ok (-1)) as HNW by (vm_compute; reflexivity).
    split; [exact HNW|].
    apply (proj2 (getSlidingWindowVideo_too_short (replicate 7 [0; 0]%float) 25 c028 1%float
                    ltac:(lia)) (-1) HNW ltac:(lia)).
Defined.

End Binary64Windows.

(** The five frames in exact arithmetic, two samples one frame apart and
    one window per frame: the same two rows. *)
Example getSlidingWindowVideo_I5 :
  getSlidingWindowVideo I5 2 1%Q 1%Q = Ok [[0; 10; 1; 20]; [1; 20; 2; 30]]%Q.
Proof. vm_compute. reflexivity. Qed.

(** C2, as stated, fails for [dim*Tau > N]: two frames and windows of three
    samples one frame apart raise [ValueError] instead of returning an empty
    cloud. *)
Lemma getSlidingWindowVideo_too_short_raises :
  (inject_Z (Z.of_nat (length [[0%Q]; [1%Q]])) <= inject_Z 3 * 1)%Q
  /\ getSlidingWindowVideo [[0%Q]; [1%Q]] 3 1%Q 1%Q = Raise ValueError
  /\ getSlidingWindowVideo [[0%Q]; [1%Q]] 3 1%Q 1%Q <> Ok [].
Proof.
  split; [discriminate|]. split; [reflexivity|]. discriminate.
Qed.

(** ** The ranking *)

Section Argsort.
Context {T : Type} `{Scalar T}.

Lemma argsort_insert_perm (a : list T) (i : nat) (l : list nat) :
  argsort_insert a i l ≡ₚ i :: l.
Proof.
  induction l as [|j l IH]; cbn; [reflexivity|].
  destruct (fltb _ _); [|reflexivity].
  rewrite IH. apply Permutation_swap.
Qed.

Lemma np_argsort_perm (a : list T) : np_argsort a ≡ₚ seq 0 (length a).
Proof.
  unfold np_argsort. induction (seq 0 (length a)) as [|i l IH]; cbn; [reflexivity|].
  rewrite argsort_insert_perm. now rewrite IH.
Qed.

Lemma ranking_perm (scores : list T) : ranking scores ≡ₚ seq 1 (length scores).
Proof.
  unfold ranking. rewrite np_argsort_perm, length_map.
  rewrite <- fmap_S_seq. apply eq_subrelation; [apply _|].
  apply map_ext. intros i. lia.
Qed.

End Argsort.

Lemma argsort_insert_sorted (a : list Q) (i : nat) (l : list nat) :
  StronglySorted (key_le a) l -> StronglySorted (key_le a) (argsort_insert a i l).
Proof.
  induction 1 as [|j l Hs IH Hj]; cbn [argsort_insert].
  - repeat constructor.
  - destruct (fltb _ _) eqn:E.
    + apply fltb_Q_lt in E. constructor; [exact IH|].
      rewrite argsort_insert_perm. constructor; [|exact Hj].
      unfold key_le. cbn in E. lraQ.
    + apply fltb_Q_ge in E. constructor; [constructor; assumption|].
      constructor; [exact E|].
      eapply Forall_impl; [exact Hj|]. intros x Hx. unfold key_le in *.
      cbn in E. lraQ.
Qed.

Lemma np_argsort_sorted (a : list Q) : StronglySorted (key_le a) (np_argsort a).
Proof.
  unfold np_argsort. induction (seq 0 (length a)) as [|i l IH]; cbn.
  - constructor.
  - apply argsort_insert_sorted, IH.
Qed.

Lemma StronglySorted_lookup_lt {A} (R : A -> A -> Prop) (l : list A)
    (p q : nat) x y :
  StronglySorted R l -> (p < q)%nat -> l !! p = Some x -> l !! q = Some y -> R x y.
Proof.
  intros Hs. revert p q. induction Hs as [|z l Hs IH Hz]; intros p q Hpq Hp Hq.
  - discriminate.
  - destruct q as [|q]; [lia|]. cbn in Hq. destruct p as [|p].
    + cbn in Hp. inversion Hp; subst.
      rewrite Forall_forall in Hz. apply Hz. eapply list_elem_of_lookup_2. exact Hq.
    + cbn in Hp. apply (IH p q); [lia|assumption|assumption].
Qed.

(** C10: the ranking of a vector of scores is a permutation of the 1-based
    video numbers [1 .. n], each appearing once, in descending order of
    score: of two ranked videos, the earlier one never has the smaller
    score, so a strictly larger score always comes first. *)
Theorem ranking_descending (scores : list Q) :
  ranking scores ≡ₚ seq 1 (length scores)
  /\ forall (p q a b : nat) (sa sb : Q),
       (p < q)%nat ->
       ranking scores !! p = Some a -> ranking scores !! q = Some b ->
       scores !! (a - 1)%nat = Some sa -> scores !! (b - 1)%nat = Some sb ->
       (sb <= sa)%Q.
Proof.
  split; [apply ranking_perm|].
  intros p q a b sa sb Hpq Ha Hb Hsa Hsb.
  unfold ranking in Ha, Hb. rewrite list_lookup_fmap in Ha, Hb.
  destruct (np_argsort (map fneg scores) !! p) as [i|] eqn:Ei; [|discriminate].
  destruct (np_argsort (map fneg scores) !! q) as [j|] eqn:Ej; [|discriminate].
  cbn in Ha, Hb. inversion Ha; inversion Hb; subst. clear Ha Hb.
  replace (i + 1 - 1)%nat with i in Hsa by lia.
  replace (j + 1 - 1)%nat with j in Hsb by lia.
  pose proof (StronglySorted_lookup_lt _ _ p q i j (np_argsort_sorted _) Hpq Ei Ej)
    as Hle.
  unfold key_le in Hle. rewrite !list_lookup_fmap, Hsa, Hsb in Hle. cbn in Hle.
  lraQ.
Qed.

(** Four videos, the second and fourth tied for first place. *)
Example ranking_four_videos : ranking [3; 5; 1; 5]%Q = [2; 4; 1; 3]%nat.
Proof. reflexivity. Qed.

(** ** Sums of real numbers *)

Section RealSums.
Local Open Scope R_scope.

Lemma foldl_Rplus (a : R) (l : list R) : foldl Rplus a l = a + foldl Rplus 0 l.
Proof.
  revert a. induction l as [|x l IH]; intros a; cbn.
  - lraR.
  - rewrite (IH (a + x)), (IH (0 + x)). lraR.
Qed.

Lemma np_sum_cons (x : R) (l : list R) : np_sum (x :: l) = x + np_sum l.
Proof. unfold np_sum. cbn. rewrite foldl_Rplus. lraR. Qed.

Lemma np_sum_shift (m : R) (l : list R) :
  np_sum (map (fun x => x - m) l) = np_sum l - INR (length l) * m.
Proof.
  induction l as [|x l IH].
  - cbn. lraR.
  - cbn [map]. rewrite !np_sum_cons, IH. cbn [length]. rewrite S_INR. lraR.
Qed.

Lemma np_sum_scale (n : R) (l : list R) :
  np_sum (map (fun x => x / n) l) = np_sum l / n.
Proof.
  induction l as [|x l IH].
  - cbn. unfold Rdiv. lraR.
  - cbn [map]. rewrite !np_sum_cons, IH. unfold Rdiv. lraR.
Qed.

Lemma np_sum_squares_scale (n : R) (l : list R) :
  np_sum (map (fun x => x * x) (map (fun x => x / n) l))
  = np_sum (map (fun x => x * x) l) * (/ n * / n).
Proof.
  induction l as [|x l IH].
  - cbn. lraR.
  - cbn [map]. rewrite !np_sum_cons, IH. unfold Rdiv. lraR.
Qed.

Lemma np_sum_squares_nonneg (l : list R) : 0 <= np_sum (map (fun x => x * x) l).
Proof.
  induction l as [|x l IH].
  - cbn. lraR.
  - cbn [map]. rewrite np_sum_cons. nraR.
Qed.

Lemma IZR_of_nat (n : nat) : IZR (Z.of_nat n) = INR n.
Proof. symmetry. apply INR_IZR_INZ. Qed.

(** ** Normalization *)

Lemma normalized_row_unit (row : list R) :
  row <> [] -> row_norm (mean_center row) <> 0 ->
  np_mean (unit_scale (mean_center row)) = 0
  /\ row_norm (unit_scale (mean_center row)) = 1.
Proof.
  intros Hne Hnorm.
  assert (INR (length row) <> 0) as Hlen.
  { apply not_0_INR. destruct row; [congruence|cbn; lia]. }
  set (c := mean_center row) in *.
  assert (np_sum c = 0) as Hc.
  { unfold c, mean_center. cbn [fsub R_scalar]. rewrite np_sum_shift.
    unfold np_mean. cbn [fdiv of_int R_scalar]. rewrite IZR_of_nat. field. exact Hlen. }
  pose proof (np_sum_squares_nonneg c) as HS.
  set (S := np_sum (map (fun x => x * x) c)) in *.
  assert (row_norm c = sqrt S) as HnS by reflexivity.
  assert (0 < S) as HSpos.
  { destruct HS as [HS|HS]; [exact HS|]. exfalso. apply Hnorm.
    rewrite HnS, <- HS. apply sqrt_0. }
  split.
  - unfold np_mean, unit_scale. cbn [fdiv of_int R_scalar].
    rewrite np_sum_scale, Hc. unfold Rdiv. lraR.
  - unfold row_norm at 1. unfold unit_scale. cbn [fdiv fmul R_scalar].
    rewrite np_sum_squares_scale. fold S. rewrite HnS.
    replace (S * (/ sqrt S * / sqrt S)) with 1; [apply sqrt_1|].
    rewrite <- Rinv_mult, sqrt_sqrt by lraR. field. lraR.
Qed.

(** Over the reals the notebook's sum, mean and norm are the arithmetic
    ones. *)
Lemma np_sum_fold_right (l : list R) : np_sum l = fold_right Rplus 0 l.
Proof.
  induction l as [|x l IH]; [reflexivity|]. rewrite np_sum_cons, IH. reflexivity.
Qed.

Lemma np_mean_R (l : list R) : np_mean l = mean_R l.
Proof.
  unfold np_mean, mean_R. cbn [fdiv of_int R_scalar].
  rewrite np_sum_fold_right, IZR_of_nat. reflexivity.
Qed.

Lemma row_norm_R (l : list R) : row_norm l = norm_R l.
Proof.
  unfold row_norm, norm_R. cbn [fmul R_scalar].
  rewrite np_sum_fold_right. reflexivity.
Qed.

(** C7, as amended: in exact arithmetic, every row of the normalized
    cloud that comes from a non-empty window that is not constant (the
    Euclidean norm of the window minus its arithmetic mean is not zero)
    is that window minus its own mean, divided by the norm of the
    centered window, and has arithmetic mean 0 and Euclidean norm 1. *)
Theorem normalize_cloud_rows (XS : matrix R) (i : nat) (row : list R) :
  XS !! i = Some row -> row <> [] ->
  norm_R (map (fun x => x - mean_R row) row) <> 0 ->
  exists y,
    normalize_cloud XS !! i = Some y
    /\ y = map (fun x => (x - mean_R row)
                         / norm_R (map (fun x => x - mean_R row) row)) row
    /\ mean_R y = 0
    /\ norm_R y = 1.
Proof.
  intros Hi Hne Hnorm.
  assert (mean_center row = map (fun x => x - mean_R row) row) as Hc.
  { unfold mean_center. rewrite np_mean_R. reflexivity. }
  rewrite <- Hc, <- row_norm_R in Hnorm.
  exists (unit_scale (mean_center row)). split.
  { unfold normalize_cloud. rewrite !list_lookup_fmap, Hi. reflexivity. }
  split.
  { unfold unit_scale. rewrite row_norm_R, Hc, map_map. reflexivity. }
  rewrite <- np_mean_R, <- row_norm_R.
  apply normalized_row_unit; assumption.
Qed.

(** The window (0, 3, 0, 3, ...) shortened to two entries: mean 3/2, norm
    of the centered window [sqrt (9/2)]. *)
Lemma normalize_cloud_rows_witness :
  norm_R (map (fun x => x - mean_R [0; 3]) [0; 3]) <> 0
  /\ exists y,
       normalize_cloud [[0; 3]] !! 0%nat = Some y
       /\ y = map (fun x => (x - mean_R [0; 3])
                            / norm_R (map (fun x => x - mean_R [0; 3]) [0; 3])) [0; 3]
       /\ mean_R y = 0
       /\ norm_R y = 1.
Proof.
  assert (norm_R (map (fun x => x - mean_R [0; 3]) [0; 3]) <> 0) as Hnorm.
  { unfold norm_R, mean_R. cbn. intros E. apply sqrt_eq_0 in E; lraR. }
  split; [exact Hnorm|].
  apply (normalize_cloud_rows [[0; 3]] 0 [0; 3] eq_refl ltac:(discriminate) Hnorm).
Defined.

End RealSums.

(** ** The reducer preserves distances *)

Section RealPCA.
Local Open Scope R_scope.

Lemma sq_dist_expand (a b : list R) :
  length a = length b ->
  np_sum (map (fun x => x * x) (zip_with Rminus a b))
  = dot a a - 2 * dot a b + dot b b.
Proof.
  revert b. induction a as [|x a IH]; intros [|y b] Hlen; try discriminate.
  - cbn. lraR.
  - unfold dot in *. cbn [zip_with map fmul R_scalar] in *.
    rewrite !np_sum_cons, IH by (cbn in Hlen; lia). lraR.
Qed.

(** Rows of [V] scaled by the square roots of non-negative eigenvalues
    have the entries of [V diag(lam) V^T] as dot products. *)
Lemma dot_scaled (l a b : list R) :
  Forall (Rle 0) l ->
  dot (zip_with Rmult a (map sqrt l)) (zip_with Rmult b (map sqrt l))
  = spectral_sum l a b.
Proof.
  intros Hl. revert a b. induction Hl as [|x l Hx Hl IH]; intros a b.
  - unfold dot, spectral_sum. destruct a, b; reflexivity.
  - destruct a as [|u a]; [reflexivity|]. destruct b as [|v b].
    + unfold dot, spectral_sum. cbn. destruct (zip_with Rmult a l); reflexivity.
    + unfold dot, spectral_sum in *. cbn [zip_with map fmul R_scalar] in *.
      rewrite !np_sum_cons, IH.
      replace (u * sqrt x * (v * sqrt x)) with (u * v * (sqrt x * sqrt x)) by lraR.
      rewrite sqrt_sqrt by exact Hx. lraR.
Qed.

Lemma dot_T_lookup (A B : matrix R) (i j : nat) (a b : list R) :
  A !! i = Some a -> B !! j = Some b ->
  exists gi, dot_T A B !! i = Some gi /\ gi !! j = Some (dot a b).
Proof.
  intros Ha Hb. unfold dot_T. exists (map (fun b => dot a b) B).
  rewrite !list_lookup_fmap, Ha, Hb. split; reflexivity.
Qed.



End RealPCA.

(** ** Block scores and the score of a video *)

Section RealScores.
Local Open Scope R_scope.
Variable doRips : matrix R -> Z -> list (list (R * R)).
Variables BlockLen BlockHop win dim : Z.

Lemma np_maximum_R (a b : R) : np_maximum a b = Rmax a b.
Proof.
  unfold np_maximum. cbn [fltb feqb R_scalar].
  destruct (Req_dec_T b b) as [_|Hn]; [|congruence]. cbn [negb]. rewrite orb_false_r.
  unfold Rmax. destruct (Rlt_dec a b), (Rle_dec a b); try reflexivity; lraR.
Qed.

Lemma fltb_R_true (a b : R) : fltb a b = true <-> a < b.
Proof.
  cbn. destruct (Rlt_dec a b); split; intros;
    try assumption; try reflexivity; try discriminate; contradiction.
Qed.

(** [np.max] of a non-empty array. *)
Lemma foldl_maximum_is_max (p : R) (ps : list R) :
  is_max (foldl np_maximum p ps) (p :: ps).
Proof.
  revert p. induction ps as [|x ps IH]; intros p.
  - cbn. split; [apply elem_of_cons; now left|]. constructor; [lraR|constructor].
  - cbn [foldl]. destruct (IH (np_maximum p x)) as [Hin Hall].
    rewrite np_maximum_R in *. inversion Hall as [|? ? Hhd Htl]; subst.
    split.
    + apply elem_of_cons in Hin. destruct Hin as [Hin|Hin].
      * rewrite Hin. unfold Rmax. destruct (Rle_dec p x).
        -- apply elem_of_cons. right. apply elem_of_cons. now left.
        -- apply elem_of_cons. now left.
      * apply elem_of_cons. right. apply elem_of_cons. now right.
    + pose proof (Rmax_l p x). pose proof (Rmax_r p x).
      constructor; [lraR|]. constructor; [lraR|]. exact Htl.
Qed.

(** Once every block has a cloud, the loop cannot fail: it is the pure
    scoring of the clouds. *)
Lemma kth_loop_clouds (X : matrix R) (idxs : list (list Z)) clouds j st :
  mapM (block_cloud win dim X) idxs = Ok clouds ->
  kth_loop doRips win dim X j idxs st = Ok (score_all doRips j clouds st).
Proof.
  revert clouds j st. induction idxs as [|idx idxs IH]; intros clouds j st Hc.
  - cbn in Hc. inversion Hc; subst. reflexivity.
  - cbn [mapM] in Hc. cbn [kth_loop].
    destruct (block_cloud win dim X idx) as [XS|e]; [|discriminate].
    rbind. cbn [mbind result_bind] in Hc.
    destruct (mapM (block_cloud win dim X) idxs) as [cs|e]; [|discriminate].
    cbn in Hc. inversion Hc; subst. cbn [score_all]. apply IH. reflexivity.
Qed.

(** One pass through the lines after [doRipsFiltration], for a block whose
    entry of [res] is still 0. *)
Lemma score_block_step (st : kth_state) (j : nat) XS PDs :
  (j < length (res st))%nat -> res st !! j = Some 0 -> 0 <= score st ->
  length (res (score_block st j XS PDs)) = length (res st)
  /\ (forall i, i <> j -> res (score_block st j XS PDs) !! i = res st !! i)
  /\ exists r, res (score_block st j XS PDs) !! j = Some r
       /\ block_score_spec PDs r
       /\ score (score_block st j XS PDs) = Rmax (score st) r.
Proof.
  intros Hj H0 Hs.
  assert (Rmax (score st) 0 = score st) as Hmax0 by (apply Rmax_left; lraR).
  unfold score_block.
  destruct PDs as [|PD0 [|PD1 PDs]].
  1,2: (split; [reflexivity|]; split; [reflexivity|]; exists 0;
        split; [exact H0|]; split; [reflexivity|]; now rewrite Hmax0).
  destruct PD1 as [|bd PD1].
  { cbn [persistences map]. split; [reflexivity|]. split; [reflexivity|]. exists 0.
    split; [exact H0|]. split; [reflexivity|]. now rewrite Hmax0. }
  cbn [persistences map]. fold (persistences PD1).
  set (p := (snd bd - fst bd)%num). set (ps := persistences PD1).
  set (m := foldl np_maximum p ps).
  pose proof (foldl_maximum_is_max p ps) as Hm. fold m in Hm.
  assert (res (if fltb (score st) m
               then {| res := <[j:=m]> (res st); score := m;
                       maxXS := XS; maxPD := bd :: PD1 |}
               else {| res := <[j:=m]> (res st); score := score st;
                       maxXS := maxXS st; maxPD := maxPD st |})
          = <[j:=m]> (res st)) as Hres
    by (destruct (fltb (score st) m); reflexivity).
  rewrite Hres. split; [apply length_insert|]. split.
  { intros i Hi. apply list_lookup_insert_ne. congruence. }
  exists m. split; [apply list_lookup_insert_eq; exact Hj|]. split; [exact Hm|].
  destruct (fltb (score st) m) eqn:E; cbn [score].
  - apply fltb_R_true in E. symmetry. apply Rmax_right. lraR.
  - symmetry. apply Rmax_left. apply Rnot_lt_le. intros Hlt.
    apply fltb_R_true in Hlt. congruence.
Qed.

Lemma score_all_scored (n : nat) (rest done : list (matrix R)) (st : kth_state) :
  (length done + length rest = n)%nat ->
  scored doRips n (length done) (done ++ rest) st ->
  scored doRips n n (done ++ rest) (score_all doRips (length done) rest st).
Proof.
  revert done st. induction rest as [|XS rest IH]; intros done st Hn Hinv.
  - cbn [score_all]. cbn in Hn.
    replace (length done) with n in Hinv by lia. exact Hinv.
  - cbn [score_all]. cbn [length] in Hn.
    destruct Hinv as (Hlen & Hzero & Hdone & Hpos & Hub & Hat).
    destruct (score_block_step st (length done) XS (doRips XS 1))
      as (Hlen' & Hother & r & Hr & Hspec & Hscore);
      [lia|apply Hzero; lia|exact Hpos|].
    specialize (IH (done ++ [XS]) (score_block st (length done) XS (doRips XS 1))).
    rewrite length_app in IH. cbn [length] in IH.
    replace (length done + 1)%nat with (S (length done)) in IH by lia.
    rewrite <- app_assoc in IH. cbn [app] in IH. apply IH; [lia|].
    pose proof (Rmax_l (score st) r) as Hl. pose proof (Rmax_r (score st) r) as Hrr.
    split; [lia|]. split.
    { intros i Hi. rewrite Hother by lia. apply Hzero. lia. }
    split.
    { intros i XS' Hi HXS. destruct (decide (i = length done)) as [->|Hne].
      - rewrite lookup_app_r in HXS by lia. rewrite Nat.sub_diag in HXS.
        cbn in HXS. inversion HXS; subst. exists r. split; assumption.
      - rewrite Hother by exact Hne. apply Hdone; [lia|exact HXS]. }
    split; [rewrite Hscore; lraR|]. split.
    { intros i r' Hi Hr'. rewrite Hscore.
      destruct (decide (i = length done)) as [->|Hne].
      - rewrite Hr in Hr'. inversion Hr'; subst. exact Hrr.
      - rewrite Hother in Hr' by exact Hne.
        specialize (Hub i r' ltac:(lia) Hr'). lraR. }
    rewrite Hscore. unfold Rmax. destruct (Rle_dec (score st) r) as [Hle|Hgt].
    + right. exists (length done). split; [lia|exact Hr].
    + destruct Hat as [Hz|(i & Hi & Hi')]; [left; exact Hz|].
      right. exists i. split; [lia|]. rewrite Hother by lia. exact Hi'.
Qed.

Lemma block_score_spec_nonneg (PDs : list (list (R * R))) (r : R) :
  (forall PD0 PD1 rest b d, PDs = PD0 :: PD1 :: rest -> (b, d) ∈ PD1 -> b <= d) ->
  block_score_spec PDs r -> 0 <= r.
Proof.
  intros Hbd Hspec. unfold block_score_spec in Hspec.
  destruct PDs as [|PD0 [|PD1 rest]]; try lraR.
  destruct PD1 as [|bd PD1]; [lraR|].
  destruct Hspec as [Hin _]. unfold persistences in Hin.
  apply list_elem_of_fmap in Hin. destruct Hin as ([b d] & -> & Hin).
  specialize (Hbd PD0 _ rest b d eq_refl Hin). cbn. lraR.
Qed.

(** C8: for a video with at least one block, every block of which has a
    cloud, and a persistence computer whose degree-1 pairs have
    [birth <= death], the KTH cell returns, without error, a state in
    which the score of each block is the largest [death - birth] of the
    block's degree-1 diagram, or 0 when that diagram is empty or missing,
    and the score of the video is the largest block score. *)
Theorem kth_video_scores (X : matrix R) (idxs : list (list Z))
    (clouds : list (matrix R)) :
  block_idxs (T:=R) (Z.of_nat (length X)) BlockLen BlockHop = Ok idxs ->
  idxs <> [] ->
  mapM (block_cloud win dim X) idxs = Ok clouds ->
  (forall XS PD0 PD1 rest b d,
      doRips XS 1%Z = PD0 :: PD1 :: rest -> (b, d) ∈ PD1 -> b <= d) ->
  exists st,
    kth_video doRips BlockLen BlockHop win dim X = Ok st
    /\ length (res st) = length idxs
    /\ (forall j XS, clouds !! j = Some XS ->
          exists r, res st !! j = Some r /\ block_score_spec (doRips XS 1%Z) r)
    /\ is_max (score st) (res st).
Proof.
  intros Hidxs Hne Hclouds Hbd.
  destruct (block_idxs_NBlocks _ _ _ _ Hidxs) as (NB & HNB & HlenNB).
  assert (0 < NB)%Z as HNBpos.
  { destruct idxs; [congruence|]. cbn in HlenNB. lia. }
  pose proof (mapM_Ok_length _ _ _ Hclouds) as Hlc.
  set (st0 := {| res := replicate (Z.to_nat NB) 0; score := 0;
                 maxXS := []; maxPD := [] |}).
  exists (score_all doRips 0 clouds st0).
  assert (kth_video doRips BlockLen BlockHop win dim X
          = Ok (score_all doRips 0 clouds st0)) as Hrun.
  { unfold kth_video. rewrite Hidxs. rbind. rewrite HNB. rbind.
    unfold np_zeros. replace (NB <? 0)%Z with false by (symmetry; apply Z.ltb_ge; lia).
    rbind. apply kth_loop_clouds. exact Hclouds. }
  split; [exact Hrun|].
  destruct (score_all_scored (length idxs) clouds [] st0)
    as (Hlen & _ & Hdone & Hpos & Hub & Hat).
  { cbn. lia. }
  { unfold scored, st0. cbn [res score length]. rewrite length_replicate.
    split; [lia|]. split.
    { intros i Hi. apply lookup_replicate_2. lia. }
    split; [intros; lia|]. split; [lraR|]. split; [intros; lia|]. now left. }
  cbn [app length] in *.
  split; [exact Hlen|]. split.
  { intros j XS Hj. apply Hdone; [|exact Hj]. rewrite <- Hlc. eapply lookup_lt_Some; eauto. }
  set (st := score_all doRips 0 clouds st0) in *.
  assert (forall i r, res st !! i = Some r -> 0 <= r) as Hnonneg.
  { intros i r Hi. assert (i < length clouds)%nat as Hlt.
    { rewrite Hlc, <- Hlen. eapply lookup_lt_Some; eauto. }
    destruct (lookup_lt_is_Some_2 clouds i Hlt) as [XS HXS].
    destruct (Hdone i XS ltac:(lia) HXS) as (r' & Hr' & Hspec).
    rewrite Hi in Hr'. inversion Hr'; subst.
    eapply block_score_spec_nonneg; [|exact Hspec]. intros. eapply Hbd; eauto. }
  assert (0 < length idxs)%nat as Hsome by (destruct idxs; [congruence|cbn; lia]).
  split.
  - destruct Hat as [Hz|(i & _ & Hi)]; [|eapply list_elem_of_lookup_2; exact Hi].
    destruct (lookup_lt_is_Some_2 (res st) 0%nat) as [r0 Hr0]; [lia|].
    assert (r0 = score st) as <-.
    { pose proof (Hnonneg _ _ Hr0). pose proof (Hub 0%nat r0 Hsome Hr0). lraR. }
    eapply list_elem_of_lookup_2. exact Hr0.
  - apply Forall_forall. intros r Hr. apply list_elem_of_lookup in Hr.
    destruct Hr as [i Hi].
    apply (Hub i); [|exact Hi]. rewrite <- Hlen. eapply lookup_lt_Some; eauto.
Qed.

End RealScores.

(** *** The KTH cell on three frames *)

Section RealExample.
Local Open Scope R_scope.

Lemma feqb_R_false (a b : R) : a <> b -> feqb a b = false.
Proof. intros Hab. cbn. destruct (Req_dec_T a b); [contradiction|reflexivity]. Qed.

Lemma Int_part_IZR (z : Z) : Int_part (IZR z) = z.
Proof. symmetry. apply Int_part_spec. lraR. Qed.

(** One block of three frames. *)
Lemma X3_idxs : block_idxs (T:=R) (Z.of_nat (length X3)) 3 1 = Ok [[0; 1; 2]%Z].
Proof.
  unfold block_idxs, NBlocks_of.
  rewrite py_div_ok by (apply feqb_R_false; cbn; lraR). rbind.
  unfold py_int_ceil. cbn [ceil_int R_rounding fadd fdiv of_int R_scalar].
  change (Z.of_nat (length X3) - 3)%Z with 0%Z.
  replace (- (1 + 0 / 1)) with (IZR (-1)) by lraR.
  rewrite Int_part_IZR. reflexivity.
Qed.

(** With [win = 1] and [dim = 2]: [Tau = 1], [dT = 1/3], three windows
    counted, and the first one already cut, since its slice would end at
    frame 3.  The cloud of the block is empty. *)
Lemma X3_clouds : mapM (block_cloud (T:=R) 1 2 X3) [[0; 1; 2]%Z] = Ok [[]].
Proof.
  cbn [mapM].
  assert (block_cloud (T:=R) 1 2 X3 [0; 1; 2]%Z = Ok []) as ->; [|reflexivity].
  unfold block_cloud, block_params.
  change (Z.of_nat (length [0; 1; 2]%Z)) with 3%Z. change (2 - 1)%Z with 1%Z.
  rewrite py_div_ok by (apply feqb_R_false; cbn; lraR). rbind.
  rewrite py_div_ok by (apply feqb_R_false; cbn; lraR). rbind.
  replace (take_rows X3 [0; 1; 2]%Z) with (Ok X3) by reflexivity. rbind.
  set (Tau := (of_int 1 / of_int 1)%num).
  set (dT := ((of_int 3 - of_int 2 * Tau) / of_int 3)%num).
  assert (Tau = 1) as HTau by (unfold Tau; cbn; lraR).
  assert (dT = / 3) as HdT by (unfold dT; rewrite HTau; cbn; lraR).
  unfold getSlidingWindowVideo. change (Z.of_nat (length X3)) with 3%Z.
  rewrite py_div_ok by (apply feqb_R_false; rewrite HdT; cbn; lraR). rbind.
  unfold py_int_floor at 1. cbn [floor_int R_rounding].
  replace (Int_part _) with 3%Z.
  2:{ transitivity (Int_part (IZR 3)); [symmetry; apply Int_part_IZR|].
      f_equal. rewrite HTau, HdT. cbn. unfold Rdiv. rewrite Rinv_inv. lraR. }
  unfold np_zeros2. change (2 * shape1 X3)%Z with 2%Z.
  change ((3 <? 0)%Z || (2 <? 0)%Z) with false. cbn iota.
  rbind. change (seq 0 (Z.to_nat 3)) with (0%nat :: seq 1 2). cbn [sliding_loop].
  rewrite idxx_first, idxx_last by lia. rbind.
  unfold py_int_floor, py_int_ceil. cbn [floor_int ceil_int R_rounding]. rbind.
  change (Z.of_nat (length X3)) with 3%Z.
  replace (- Int_part _)%Z with 1%Z.
  2:{ transitivity (- Int_part (IZR (-1)))%Z; [rewrite Int_part_IZR; reflexivity|].
      do 2 f_equal. rewrite HTau, HdT. change (2 - 1)%Z with 1%Z.
      change (Z.of_nat 0) with 0%Z. cbn. lraR. }
  reflexivity.
Qed.

(** The block's score is the larger persistence, 2, and so is the
    video's. *)
Lemma kth_video_scores_witness :
  block_idxs (T:=R) (Z.of_nat (length X3)) 3 1 = Ok [[0; 1; 2]%Z]
  /\ mapM (block_cloud (T:=R) 1 2 X3) [[0; 1; 2]%Z] = Ok [[]]
  /\ exists st,
       kth_video rips_stub 3 1 1 2 X3 = Ok st
       /\ length (res st) = 1%nat
       /\ (exists r, res st !! 0%nat = Some r /\ is_max r [1 - 0; 2 - 0])
       /\ is_max (score st) (res st).
Proof.
  split; [exact X3_idxs|]. split; [exact X3_clouds|].
  destruct (kth_video_scores rips_stub 3 1 1 2 X3 [[0; 1; 2]%Z] [[]] X3_idxs
              ltac:(discriminate) X3_clouds)
    as (st & Hrun & Hlen & Hblocks & Hmax).
  { intros XS PD0 PD1 rest b d E Hin. unfold rips_stub in E.
    inversion E; subst.
    apply elem_of_cons in Hin. destruct Hin as [Hin|Hin]; [inversion Hin; lraR|].
    apply elem_of_cons in Hin. destruct Hin as [Hin|Hin]; [inversion Hin; lraR|].
    apply elem_of_nil in Hin. contradiction. }
  exists st. split; [exact Hrun|]. split; [exact Hlen|].
  split; [exact (Hblocks 0%nat [] eq_refl)|exact Hmax].
Defined.

End RealExample.

(** ** Binary64: square roots of negative eigenvalues, and 0/0 *)

Section PCAClamp.
Context {T : Type} `{Scalar T} `{Roots T}.
Variable eigh : matrix T -> list T * matrix T.

Lemma clamp0_id (l : T) :
  feqb fzero fzero = true -> fltb l fzero = false -> clamp0 l = l.
Proof. intros Hz Hl. unfold clamp0, np_maximum. rewrite Hl, Hz. reflexivity. Qed.

(** Entry (i, k) of the output is [V[i][k] * sqrt(lam[k])]. *)
Lemma getPCAVideo_entry (I : matrix T) i k row v l :
  snd (eigh (dot_T I I)) !! i = Some row -> row !! k = Some v ->
  fst (eigh (dot_T I I)) !! k = Some l ->
  exists out, getPCAVideo eigh I !! i = Some out
              /\ out !! k = Some (v * np_sqrt l)%num.
Proof.
  unfold getPCAVideo. destruct (eigh (dot_T I I)) as [lam V]. cbn [fst snd].
  intros Hrow Hv Hl.
  exists (zip_with fmul row (map np_sqrt lam)). unfold scale_columns.
  rewrite list_lookup_fmap, Hrow. split; [reflexivity|].
  rewrite lookup_zip_with, Hv. cbn. rewrite list_lookup_fmap, Hl. reflexivity.
Qed.

(** Without a negative eigenvalue, clamping changes nothing. *)
Lemma getPCAVideo_clamped_agree (I : matrix T) :
  feqb fzero fzero = true ->
  (forall l, l ∈ fst (eigh (dot_T I I)) -> fltb l fzero = false) ->
  getPCAVideo eigh I = getPCAVideo_clamped eigh I.
Proof.
  unfold getPCAVideo, getPCAVideo_clamped.
  destruct (eigh (dot_T I I)) as [lam V]. cbn [fst snd].
  intros Hz Hpos. f_equal. symmetry.
  rewrite <- (map_id lam) at 2. apply map_ext_in. intros l Hl.
  apply clamp0_id; [exact Hz|]. apply Hpos. apply list_elem_of_In. exact Hl.
Qed.

End PCAClamp.

Section Binary64.
Import PrimFloat.

(** The square root of a negative double is NaN, and so is its product
    with any double. *)
Lemma sqrt_negative_nan (l : float) :
  ltb l zero = true -> FloatOps.Prim2SF (sqrt l) = SpecFloat.S754_nan.
Proof.
  intros Hl. rewrite FloatAxioms.sqrt_spec. rewrite FloatAxioms.ltb_spec in Hl.
  change (FloatOps.Prim2SF zero) with (SpecFloat.S754_zero false) in Hl.
  destruct (FloatOps.Prim2SF l) as [s|s| |s m e];
    try destruct s; try discriminate Hl; reflexivity.
Qed.

Lemma scaled_negative_is_nan (v l : float) :
  ltb l zero = true -> is_nan (mul v (sqrt l)) = true.
Proof.
  intros Hl. unfold is_nan. rewrite FloatAxioms.eqb_spec, FloatAxioms.mul_spec.
  rewrite (sqrt_negative_nan l Hl).
  destruct (FloatOps.Prim2SF v); reflexivity.
Qed.

(** C3, as amended: in binary64, [getPCAVideo] computes the Gram matrix
    [G = I I^T] and its eigendecomposition [(lam, V) = eigh G], the
    eigenvalues in the order [eigh] returns them (ascending, for
    [linalg.eigh]), and returns [V] with column [k] multiplied by
    [sqrt(lam[k])], with no clamping:
    entry (i, k) of the output is [V[i][k] * sqrt(lam[k])], which is NaN
    when [lam[k]] is negative.  When no eigenvalue is negative the output
    is the one of the clamped reducer, [V] scaled by
    [sqrt(max(lam, 0))]. *)
Theorem getPCAVideo_unclamped (eigh : matrix float -> list float * matrix float)
    (I : matrix float) :
  (forall i k row v l,
      snd (eigh (dot_T I I)) !! i = Some row -> row !! k = Some v ->
      fst (eigh (dot_T I I)) !! k = Some l ->
      exists out, getPCAVideo eigh I !! i = Some out
                  /\ out !! k = Some (v * np_sqrt l)%num
                  /\ (fltb l fzero = true -> is_nan (v * np_sqrt l)%num = true))
  /\ ((forall l, l ∈ fst (eigh (dot_T I I)) -> fltb l fzero = false) ->
      getPCAVideo eigh I = getPCAVideo_clamped eigh I).
Proof.
  split.
  - intros i k row v l Hrow Hv Hl.
    destruct (getPCAVideo_entry eigh I i k row v l Hrow Hv Hl) as (out & Hout & Hk).
    exists out. split; [exact Hout|]. split; [exact Hk|].
    apply scaled_negative_is_nan.
  - apply getPCAVideo_clamped_agree. reflexivity.
Qed.

(** C3, as stated, fails in binary64: for the proportional frames 1.5 and
    2.7 the Gram matrix is singular up to rounding, the eigensolver of a
    2 x 2 matrix returns the eigenvalues -6.66e-16 and 9.54 (ascending),
    and the first column of the output of [getPCAVideo] is NaN, where the
    clamped reducer has zeros. *)
Lemma getPCAVideo_negative_eigenvalue :
  map (fun l => fltb l fzero) (fst (eigh_2x2 (dot_T X15_27 X15_27))) = [true; false]
  /\ map (map is_nan) (getPCAVideo eigh_2x2 X15_27) = [[true; false]; [true; false]]
  /\ map (map is_nan) (getPCAVideo_clamped eigh_2x2 X15_27)
     = [[false; false]; [false; false]].
Proof. repeat split; vm_compute; reflexivity. Qed.

(** Not every singular Gram matrix does it: for the frames 0.6 and 0.7
    the smaller eigenvalue is computed as 0, and nothing is NaN. *)
Example getPCAVideo_zero_eigenvalue :
  map (fun l => eqb l zero) (fst (eigh_2x2 (dot_T X67 X67))) = [true; false]
  /\ map (map is_nan) (getPCAVideo eigh_2x2 X67) = [[false; false]; [false; false]].
Proof. split; vm_compute; reflexivity. Qed.

Lemma np_sum_zeros (n : nat) : np_sum (replicate n zero) = zero.
Proof.
  unfold np_sum. induction n as [|n IH]; [reflexivity|].
  cbn [replicate foldl]. exact IH.
Qed.

(** C6, as amended: in binary64, a window whose entries are all equal to
    [c], with a mean computed as [c] exactly and [c - c = 0] ([c] finite),
    is mean-centered to zeros, its norm is 0, and the normalization
    divides 0 by 0 unguarded: the row handed to the persistence computer
    is all NaN. *)
Theorem normalize_constant_row (XS : matrix float) (i n : nat) (c : float) :
  XS !! i = Some (replicate n c) ->
  np_mean (replicate n c) = c ->
  sub c c = zero ->
  normalize_cloud XS !! i = Some (replicate n nan).
Proof.
  intros Hi Hmean Hsub.
  unfold normalize_cloud. rewrite !list_lookup_fmap, Hi.
  cbn [fmap option_fmap option_map].
  f_equal. unfold unit_scale, row_norm, mean_center.
  rewrite Hmean. cbn [fsub fmul fdiv float_scalar].
  change (map ?f (replicate n c)) with (f <$> replicate n c).
  rewrite fmap_replicate, Hsub.
  change (map ?f (replicate n zero)) with (f <$> replicate n zero).
  rewrite !fmap_replicate.
  change (zero * zero)%float with zero. rewrite np_sum_zeros. reflexivity.
Qed.

(** A static window of three ones. *)
Lemma normalize_constant_row_witness :
  np_mean static_window = 1%float
  /\ sub 1 1 = zero
  /\ normalize_cloud [static_window] !! 0%nat = Some [nan; nan; nan].
Proof.
  split; [reflexivity|]. split; [reflexivity|].
  apply (normalize_constant_row [static_window] 0 3 1%float);
    reflexivity.
Defined.

(** C6, as stated, fails: the static window comes out as three NaN, not
    as a sentinel row, and nothing flags it. *)
Lemma normalize_static_window :
  map (map is_nan) (normalize_cloud [static_window]) = [[true; true; true]].
Proof. vm_compute. reflexivity. Qed.

(** C7, as stated, fails in binary64: the window (1, 1 + 2^-52, 1) is not
    constant, its mean is computed as 1, the centered window is
    (0, 2^-52, 0) with norm 2^-52, and the normalized row is (0, 1, 0),
    whose mean is 1/3, not 0. *)
Lemma normalize_nearly_constant :
  np_mean nearly_constant = 1%float
  /\ row_norm (mean_center nearly_constant) = 0x1p-52%float
  /\ normalize_cloud [nearly_constant] = [[0; 1; 0]]%float
  /\ ltb 0.25 (np_mean [0; 1; 0]%float) = true.
Proof. repeat split; vm_compute; reflexivity. Qed.

(** A static window whose mean is not computed exactly is not even NaN:
    the sum of three 0.1 is rounded, the centered entries are -1.4e-17, and
    the row is scaled to three entries below -1/2 (they are -0.577). *)
Example normalize_static_tenths :
  map (map (fun x => (is_nan x, ltb x (-0.5)%float))) (normalize_cloud [static_tenths])
  = [[(false, true); (false, true); (false, true)]].
Proof. vm_compute. reflexivity. Qed.

(** In the KTH cell itself: a block of eight alternating frames with
    [win = 2], [dim = 3] has [Tau = 1], [dT = 0.625]; its fifth window
    samples the times 2.5, 3.5, 4.5, where both interpolated features
    are 0.5 throughout, and the cloud handed to the persistence computer
    ends with a row of NaN. *)
Example block_cloud_static_window :
  block_params (T:=float) 2 3 (seqZ 0 8) = Ok (1, 0.625)%float
  /\ (XS ← block_cloud (T:=float) 2 3 X8 (seqZ 0 8); Ok (map (map is_nan) XS))
     = Ok [[false; false; false; false; false; false];
           [false; false; false; false; false; false];
           [false; false; false; false; false; false];
           [false; false; false; false; false; false];
           [true; true; true; true; true; true]].
Proof. split; vm_compute; reflexivity. Qed.

(** The whole chain on doubles: five frames, half-frame steps. *)
Example getSlidingWindowVideo_binary64 :
  getSlidingWindowVideo [[0; 10]; [1; 20]; [2; 30]; [3; 40]; [4; 50]]%float
                        2 0.5%float 0.5%float
  = Ok [[0; 10; 0.5; 15]; [0.5; 15; 1; 20]; [1; 20; 1.5; 25]; [1.5; 25; 2; 30]]%float.
Proof. vm_compute. reflexivity. Qed.

End Binary64.

(** * Further properties of the notebook's functions *)

(** ** [getSlidingWindowVideo]: shape of the result, and its errors *)

(** What a call with sensible parameters does: it returns the rows of the
    windows before the first one whose slice does not fit. *)
Lemma getSlidingWindowVideo_run (I : matrix Q) (dim : Z) (Tau dT : Q) :
  0 < dim -> (0 <= Tau)%Q -> (0 < dT)%Q ->
  (inject_Z dim * Tau <= inject_Z (Z.of_nat (length I)))%Q ->
  exists X,
    getSlidingWindowVideo I dim Tau dT = Ok X
    /\ Z.of_nat (length X) <= NumWindows (Z.of_nat (length I)) dim Tau dT
    /\ (forall i, (i < length X)%nat -> window_end dim Tau dT i < Z.of_nat (length I))
    /\ (Z.of_nat (length X) < NumWindows (Z.of_nat (length I)) dim Tau dT ->
          Z.of_nat (length I) <= window_end dim Tau dT (length X))
    /\ (forall i, (i < length X)%nat -> X !! i = Some (body_row I dim Tau dT i)).
Proof.
  intros Hdim HTau HdT Hfit.
  rewrite getSlidingWindowVideo_unfold by (intros E; rewrite E in HdT; discriminate).
  set (NW := NumWindows (Z.of_nat (length I)) dim Tau dT).
  assert (0 <= NW) as HNW.
  { unfold NW, NumWindows. change 0 with (Qfloor 0%Q). apply Qfloor_resp_le.
    apply Qle_shift_div_l; [exact HdT|]. lraQ. }
  unfold np_zeros2.
  pose proof (shape1_nonneg I) as HP.
  replace ((NW <? 0) || (dim * shape1 I <? 0)) with false.
  2:{ symmetry. apply orb_false_iff. split; apply Z.ltb_ge; nia. }
  rsimpl.
  set (X0 := replicate (Z.to_nat NW) (replicate (Z.to_nat (dim * shape1 I)) fzero)).
  destruct (sliding_loop_run I dim Tau dT Hdim HTau ltac:(lraQ) (Z.to_nat NW) 0%nat X0)
    as (X & m & Hrun & Hm & Hgood & Hbad & Hlen & _ & Hrows).
  { unfold X0. rewrite length_replicate. lia. }
  assert (length X = m) as Hlen'.
  { unfold X0 in Hlen. rewrite length_replicate in Hlen. lia. }
  exists X. split; [exact Hrun|]. split; [lia|]. split.
  { intros i Hi. apply Hgood. lia. }
  split. { intros Hlt. rewrite Hlen'. apply Hbad. lia. }
  intros i Hi. apply Hrows. lia.
Qed.

(** *** One window per frame, one frame between samples *)

Lemma sample_time_unit (i : nat) (k : Z) :
  (sample_time 1 1 i k == inject_Z (Z.of_nat i + k))%Q.
Proof. unfold sample_time. rewrite inject_Z_plus. ring. Qed.

Lemma window_end_unit (dim : Z) (i : nat) : window_end dim 1 1 i = Z.of_nat i + dim + 1.
Proof.
  unfold window_end. rewrite (Qceiling_comp _ _ (sample_time_unit i (dim - 1))).
  rewrite Qceiling_Z. lia.
Qed.

Lemma NumWindows_unit (N dim : Z) : NumWindows N dim 1 1 = N - dim.
Proof.
  unfold NumWindows.
  assert ((inject_Z N - inject_Z dim * 1) / 1 == inject_Z (N - dim))%Q as E
    by (rewrite inject_Z_sub; field).
  rewrite (Qfloor_comp _ _ E). apply Qfloor_Z.
Qed.

(** At a frame time the interpolant is the frame. *)
Lemma lerp_frames_integer (I : matrix Q) (t : Q) (j : Z) (p : nat) :
  (t == inject_Z j)%Q -> (lerp_frames I t p == frame_entry I j p)%Q.
Proof.
  intros Ht. unfold lerp_frames. cbn zeta.
  rewrite (Qfloor_comp _ _ Ht), Qfloor_Z. rewrite Ht. ring.
Qed.

Lemma frame_row_entries (I : matrix Q) (j : Z) :
  0 <= j < Z.of_nat (length I) ->
  Forall (fun r => Z.of_nat (length r) = shape1 I) I ->
  map (fun p => frame_entry I j (Z.to_nat p)) (np_arange (shape1 I)) = frame_row I j.
Proof.
  intros Hj HI. unfold frame_entry.
  assert (Z.of_nat (length (frame_row I j)) = shape1 I) as Hlen.
  { unfold frame_row. destruct (I !! Z.to_nat j) as [r|] eqn:E.
    - rewrite Forall_forall in HI. apply HI. eapply list_elem_of_lookup_2. exact E.
    - apply lookup_ge_None in E. lia. }
  rewrite <- Hlen. generalize (frame_row I j). intros r.
  apply list_eq. intros k. unfold np_arange. rewrite list_lookup_fmap.
  destruct (decide (k < length r)%nat) as [Hk|Hk].
  - rewrite lookup_seqZ_lt by lia. cbn [fmap option_fmap option_map].
    replace (Z.to_nat (0 + Z.of_nat k)) with k by lia.
    destruct (lookup_lt_is_Some_2 r k Hk) as [x Hx]. rewrite Hx. reflexivity.
  - rewrite lookup_seqZ_ge by lia. cbn. symmetry. apply lookup_ge_None. lia.
Qed.

Lemma Forall2_Qeq_trans (a b c : list Q) :
  Forall2 Qeq a b -> Forall2 Qeq b c -> Forall2 Qeq a c.
Proof.
  intros Hab. revert c. induction Hab as [|x y a b Hxy Hab IH]; intros c Hbc.
  - inversion Hbc. constructor.
  - inversion Hbc as [|y' z b' c' Hyz Hbc']; subst. constructor.
    + rewrite Hxy. exact Hyz.
    + apply IH. exact Hbc'.
Qed.

(** With [Tau = 1] and [dT = 1], the parameters of the jumping-jacks cell,
    nothing is interpolated: for a series of [N > dim] frames of one
    length the embedding has exactly [N - dim - 1] rows, one fewer than
    counted, and row [i] is the frames [i, i+1, ..., i+dim-1] laid end to
    end. *)
Theorem getSlidingWindowVideo_unit_step (I : matrix Q) (dim : Z) :
  0 < dim -> dim < Z.of_nat (length I) ->
  Forall (fun r => Z.of_nat (length r) = shape1 I) I ->
  exists X,
    getSlidingWindowVideo I dim 1%Q 1%Q = Ok X
    /\ Z.of_nat (length X) = Z.of_nat (length I) - dim - 1
    /\ forall i row, X !! i = Some row ->
         Forall2 Qeq row
           (concat (map (fun k => frame_row I (Z.of_nat i + k)) (np_arange dim))).
Proof.
  intros Hdim HN HI.
  destruct (getSlidingWindowVideo_run I dim 1 1 Hdim) as (X & HX & Hle & Hgood & Hcut & Hrows).
  { discriminate. } { reflexivity. }
  { rewrite Qmult_1_r, <- Zle_Qle. lia. }
  rewrite NumWindows_unit in Hle, Hcut.
  assert (Z.of_nat (length X) = Z.of_nat (length I) - dim - 1) as Hlen.
  { destruct (Z_lt_le_dec (Z.of_nat (length X)) (Z.of_nat (length I) - dim)) as [Hlt|Hge].
    - specialize (Hcut Hlt). rewrite window_end_unit in Hcut.
      destruct (length X) as [|m] eqn:Em; [lia|].
      specialize (Hgood m ltac:(lia)). rewrite window_end_unit in Hgood. lia.
    - assert (0 < length X)%nat as Hpos by lia.
      specialize (Hgood (length X - 1)%nat ltac:(lia)).
      rewrite window_end_unit in Hgood. lia. }
  exists X. split; [exact HX|]. split; [exact Hlen|].
  intros i row Hi.
  assert (i < length X)%nat as Hlt by (eapply lookup_lt_Some; eauto).
  rewrite Hrows in Hi by exact Hlt. inversion Hi; subst. clear Hi.
  eapply Forall2_Qeq_trans.
  { apply body_row_interp; discriminate. }
  unfold window_row. apply Forall2_concat_map. intros k Hk.
  unfold np_arange in Hk. apply elem_of_seqZ in Hk.
  rewrite <- (frame_row_entries I (Z.of_nat i + k)) by (try assumption; lia).
  apply Forall2_map_same. intros p _.
  apply lerp_frames_integer. apply sample_time_unit.
Qed.

(** Five frames, windows of two: the rows are frames 0-1 and 1-2. *)
Lemma getSlidingWindowVideo_unit_step_witness :
  0 < 2 /\ 2 < Z.of_nat (length I5)
  /\ Forall (fun r => Z.of_nat (length r) = shape1 I5) I5
  /\ exists X,
       getSlidingWindowVideo I5 2 1%Q 1%Q = Ok X
       /\ Z.of_nat (length X) = 2
       /\ forall i row, X !! i = Some row ->
            Forall2 Qeq row (frame_row I5 (Z.of_nat i + 0) ++ frame_row I5 (Z.of_nat i + 1) ++ []).
Proof.
  assert (Forall (fun r => Z.of_nat (length r) = shape1 I5) I5) as HI
    by (repeat constructor).
  split; [lia|]. split; [cbn; lia|]. split; [exact HI|].
  destruct (getSlidingWindowVideo_unit_step I5 2 ltac:(lia) ltac:(cbn; lia) HI)
    as (X & HX & Hlen & Hrows).
  exists X. split; [exact HX|]. split; [exact Hlen|exact Hrows].
Defined.

(** The parameters the function does not check.  A zero step [dT] divides
    by zero in the window count; [dim = 0] leaves [idxx] empty, so that
    [idxx[0]] raises [IndexError] as soon as one window is counted. *)
Theorem getSlidingWindowVideo_degenerate (I : matrix Q) (dim : Z) (Tau dT : Q) :
  ((dT == 0)%Q -> getSlidingWindowVideo I dim Tau dT = Raise ZeroDivisionError)
  /\ ((0 < dT)%Q -> (dT <= inject_Z (Z.of_nat (length I)))%Q ->
      getSlidingWindowVideo I 0 Tau dT = Raise IndexError).
Proof.
  split.
  - intros HdT. unfold getSlidingWindowVideo, py_div. cbn [feqb fzero Q_scalar].
    apply Qeq_bool_iff in HdT. rewrite HdT. reflexivity.
  - intros HdT HN.
    rewrite getSlidingWindowVideo_unfold by (intros E; rewrite E in HdT; discriminate).
    set (NW := NumWindows (Z.of_nat (length I)) 0 Tau dT).
    assert (1 <= NW) as HNW.
    { unfold NW, NumWindows. change 1 with (Qfloor 1%Q). apply Qfloor_resp_le.
      apply Qle_shift_div_l; [exact HdT|]. change (inject_Z 0) with 0%Q. lraQ. }
    unfold np_zeros2. change (0 * shape1 I) with 0.
    replace ((NW <? 0) || (0 <? 0)) with false.
    2:{ symmetry. apply orb_false_iff. split; apply Z.ltb_ge; lia. }
    rsimpl. destruct (Z.to_nat NW) as [|n] eqn:En; [lia|]. reflexivity.
Qed.

(** ** The blocks of the KTH cell and their embedding parameters *)

(** When the hop is at most the block length and the video has at least
    one block length of frames, the first block is the first [BlockLen]
    frames, every block has more than [BlockLen - BlockHop] and at most
    [BlockLen] frames, and so, for [dim <> 1], the parameters of every
    block are defined: neither division raises. *)
Theorem blocks_nonempty (N BlockLen BlockHop : Z) (idxs : list (list Z)) :
  0 < BlockHop -> BlockHop <= BlockLen -> BlockLen <= N ->
  block_idxs (T:=Q) N BlockLen BlockHop = Ok idxs ->
  idxs !! 0%nat = Some (seqZ 0 BlockLen)
  /\ (forall idx, idx ∈ idxs ->
        BlockLen - BlockHop < Z.of_nat (length idx) <= BlockLen)
  /\ (forall win dim idx, dim <> 1 -> idx ∈ idxs ->
        exists Tau dT, block_params (T:=Q) win dim idx = Ok (Tau, dT)).
Proof.
  intros HH HL HN Hidxs.
  destruct (block_idxs_NBlocks _ _ _ _ Hidxs) as (NB & HNB & Hlen).
  rewrite NBlocks_of_Q in HNB by exact HH. inversion HNB as [HNB']. clear HNB.
  set (c := (N - BlockLen + BlockHop - 1) / BlockHop) in *.
  pose proof (Z.div_mod (N - BlockLen + BlockHop - 1) BlockHop ltac:(lia)) as Hd.
  pose proof (Z.mod_pos_bound (N - BlockLen + BlockHop - 1) BlockHop HH) as Hm.
  fold c in Hd.
  assert (0 <= c) as Hc by (apply Z.div_pos; lia).
  assert (forall idx, idx ∈ idxs ->
            BlockLen - BlockHop < Z.of_nat (length idx) <= BlockLen) as Hlens.
  { intros idx Hidx.
    apply list_elem_of_lookup in Hidx. destruct Hidx as [k Hk].
    assert (Z.of_nat k < 1 + c) as Hkc by (apply lookup_lt_Some in Hk; lia).
    rewrite (block_idxs_lookup _ _ _ _ _ _ Hidxs Hk), length_seqZ. nia. }
  split; [|split].
  - destruct (lookup_lt_is_Some_2 idxs 0%nat) as [first Hfirst]; [lia|].
    rewrite Hfirst. f_equal.
    rewrite (block_idxs_lookup _ _ _ _ _ _ Hidxs Hfirst). f_equal. lia.
  - exact Hlens.
  - intros win dim idx Hdim Hidx. specialize (Hlens idx Hidx).
    unfold block_params.
    rewrite py_div_Q by (apply inject_Z_nonzero; lia). rbind.
    rewrite py_div_Q by (apply inject_Z_nonzero; lia). rbind.
    eexists _, _. reflexivity.
Qed.

(** Ten frames in blocks of four every two. *)
Lemma blocks_nonempty_witness :
  0 < 2 /\ 2 <= 4 /\ 4 <= 10
  /\ block_idxs (T:=Q) 10 4 2 = Ok [[0; 1; 2; 3]; [2; 3; 4; 5]; [4; 5; 6; 7]; [6; 7; 8; 9]]
  /\ (forall idx, idx ∈ [[0; 1; 2; 3]; [2; 3; 4; 5]; [4; 5; 6; 7]; [6; 7; 8; 9]] ->
        4 - 2 < Z.of_nat (length idx) <= 4)
  /\ exists Tau dT, block_params (T:=Q) 3 4 [6; 7; 8; 9] = Ok (Tau, dT).
Proof.
  assert (block_idxs (T:=Q) 10 4 2
          = Ok [[0; 1; 2; 3]; [2; 3; 4; 5]; [4; 5; 6; 7]; [6; 7; 8; 9]]) as Hidxs
    by (vm_compute; reflexivity).
  split; [lia|]. split; [lia|]. split; [lia|]. split; [exact Hidxs|].
  destruct (blocks_nonempty 10 4 2 _ ltac:(lia) ltac:(lia) ltac:(lia) Hidxs)
    as (_ & Hlens & Hparams).
  split; [exact Hlens|]. apply Hparams; [lia|].
  do 3 (apply elem_of_cons; right). apply elem_of_cons. now left.
Defined.

(** ** Normalization of the point cloud, over the reals *)

Section RealNormalize.
Local Open Scope R_scope.

Lemma np_sum_affine (a b : R) (l : list R) :
  np_sum (map (fun x => a * x + b) l) = a * np_sum l + INR (length l) * b.
Proof.
  induction l as [|x l IH].
  - cbn. lraR.
  - cbn [map]. rewrite !np_sum_cons, IH. cbn [length]. rewrite S_INR. lraR.
Qed.

Lemma np_sum_squares_mult (a : R) (l : list R) :
  np_sum (map (fun x => x * x) (map (fun x => a * x) l))
  = a * a * np_sum (map (fun x => x * x) l).
Proof.
  induction l as [|x l IH].
  - cbn. lraR.
  - cbn [map]. rewrite !np_sum_cons, IH. lraR.
Qed.

Lemma mean_center_affine (a b : R) (row : list R) :
  row <> [] ->
  mean_center (map (fun x => a * x + b) row) = map (fun x => a * x) (mean_center row).
Proof.
  intros Hne.
  assert (INR (length row) <> 0) as Hlen.
  { apply not_0_INR. destruct row; [congruence|cbn; lia]. }
  unfold mean_center. rewrite !map_map. apply map_ext. intros x.
  unfold np_mean. cbn [fsub fdiv of_int R_scalar].
  rewrite np_sum_affine, length_map, IZR_of_nat. field. exact Hlen.
Qed.

(** The normalized window does not depend on the brightness or the
    contrast of the window: replacing every entry [x] by [a*x + b] with
    [a > 0] leaves the normalized row unchanged. *)
Theorem normalize_affine_invariant (a b : R) (row : list R) :
  0 < a -> row <> [] -> row_norm (mean_center row) <> 0 ->
  unit_scale (mean_center (map (fun x => a * x + b) row))
  = unit_scale (mean_center row).
Proof.
  intros Ha Hne Hnorm. rewrite mean_center_affine by exact Hne.
  set (c := mean_center row) in *.
  assert (row_norm (map (fun x => a * x) c) = a * row_norm c) as Hn.
  { unfold row_norm. cbn [fmul R_scalar]. rewrite np_sum_squares_mult.
    unfold np_sqrt, R_roots.
    rewrite sqrt_mult; [|nraR|apply np_sum_squares_nonneg].
    rewrite sqrt_square by lraR. reflexivity. }
  unfold unit_scale. rewrite Hn, map_map. apply map_ext. intros x.
  cbn [fdiv R_scalar]. field. split; [exact Hnorm|lraR].
Qed.

Lemma row_norm_03 : row_norm (mean_center [0; 3]) <> 0.
Proof.
  unfold row_norm, mean_center, np_mean, np_sum, np_sqrt, R_roots. cbn.
  change (Z.of_nat 2) with 2%Z.
  intros E. apply sqrt_eq_0 in E; lraR.
Qed.

Lemma row_norm_30 : row_norm (mean_center [3; 0]) <> 0.
Proof.
  unfold row_norm, mean_center, np_mean, np_sum, np_sqrt, R_roots. cbn.
  change (Z.of_nat 2) with 2%Z.
  intros E. apply sqrt_eq_0 in E; lraR.
Qed.

(** The window (0, 3) and the window (1, 7) = 2 * (0, 3) + 1. *)
Lemma normalize_affine_invariant_witness :
  0 < 2 /\ [0; 3] <> [] /\ row_norm (mean_center [0; 3]) <> 0
  /\ unit_scale (mean_center (map (fun x => 2 * x + 1) [0; 3]))
     = unit_scale (mean_center [0; 3]).
Proof.
  split; [lraR|]. split; [discriminate|]. split; [exact row_norm_03|].
  apply (normalize_affine_invariant 2 1 [0; 3]); [lraR|discriminate|exact row_norm_03].
Defined.

Lemma unit_row_fixed (y : list R) :
  np_mean y = 0 -> row_norm y = 1 -> unit_scale (mean_center y) = y.
Proof.
  intros Hm Hn.
  assert (mean_center y = y) as ->.
  { unfold mean_center. rewrite Hm. rewrite <- (map_id y) at 2.
    apply map_ext. intros x. cbn. lraR. }
  unfold unit_scale. rewrite Hn. rewrite <- (map_id y) at 2.
  apply map_ext. intros x. cbn. lraR.
Qed.

(** Normalizing twice is normalizing once, on a cloud without empty or
    constant windows. *)
Theorem normalize_cloud_idempotent (XS : matrix R) :
  Forall (fun row => row <> [] /\ row_norm (mean_center row) <> 0) XS ->
  normalize_cloud (normalize_cloud XS) = normalize_cloud XS.
Proof.
  intros HXS. unfold normalize_cloud. rewrite !map_map.
  apply map_ext_in. intros row Hrow.
  rewrite Forall_forall in HXS. apply list_elem_of_In in Hrow.
  destruct (HXS row Hrow) as [Hne Hnorm].
  destruct (normalized_row_unit row Hne Hnorm) as [Hm Hn].
  apply unit_row_fixed; assumption.
Qed.

Lemma normalize_cloud_idempotent_witness :
  Forall (fun row => row <> [] /\ row_norm (mean_center row) <> 0) [[0; 3]; [3; 0]]
  /\ normalize_cloud (normalize_cloud [[0; 3]; [3; 0]]) = normalize_cloud [[0; 3]; [3; 0]].
Proof.
  assert (Forall (fun row => row <> [] /\ row_norm (mean_center row) <> 0)
            [[0; 3]; [3; 0]]) as HXS.
  { constructor; [split; [discriminate|exact row_norm_03]|].
    constructor; [split; [discriminate|exact row_norm_30]|constructor]. }
  split; [exact HXS|]. apply (normalize_cloud_idempotent _ HXS).
Defined.

Lemma zip_with_diag {A B} (f : A -> A -> B) (l : list A) :
  zip_with f l l = map (fun x => f x x) l.
Proof. induction l as [|x l IH]; [reflexivity|]. cbn. f_equal. exact IH. Qed.

Lemma sq_sum_expand (a b : list R) :
  length a = length b ->
  np_sum (map (fun x => x * x) (zip_with Rplus a b))
  = dot a a + 2 * dot a b + dot b b.
Proof.
  revert b. induction a as [|x a IH]; intros [|y b] Hlen; try discriminate.
  - cbn. lraR.
  - unfold dot in *. cbn [zip_with map fmul R_scalar] in *.
    rewrite !np_sum_cons, IH by (cbn in Hlen; lia). lraR.
Qed.

Lemma unit_norm_dot (y : list R) : row_norm y = 1 -> dot y y = 1.
Proof.
  intros Hn. unfold dot. rewrite zip_with_diag. unfold row_norm in Hn.
  cbn [fmul R_scalar] in *. unfold np_sqrt, R_roots in Hn.
  pose proof (np_sum_squares_nonneg y) as Hpos.
  rewrite <- (sqrt_sqrt _ Hpos), Hn. lraR.
Qed.

Lemma unit_rows_distance (a b : list R) :
  length a = length b -> row_norm a = 1 -> row_norm b = 1 ->
  row_norm (zip_with fsub a b) <= 2.
Proof.
  intros Hlen Ha Hb. unfold row_norm at 1. cbn [fsub fmul R_scalar].
  rewrite sq_dist_expand by exact Hlen.
  pose proof (np_sum_squares_nonneg (zip_with Rplus a b)) as Hs.
  rewrite sq_sum_expand in Hs by exact Hlen.
  rewrite (unit_norm_dot a Ha), (unit_norm_dot b Hb) in *.
  unfold np_sqrt, R_roots.
  replace 2 with (sqrt 4) at 2 by (replace 4 with (2 * 2) by lraR; apply sqrt_square; lraR).
  apply sqrt_le_1_alt. lraR.
Qed.

(** What the persistence computer is given: points of the unit sphere.
    Two normalized windows of one length, neither constant, are at
    Euclidean distance at most 2, which therefore bounds every death time
    of the Rips filtration of the cloud. *)
Theorem normalize_cloud_diameter (XS : matrix R) (i j : nat) (ri rj : list R) :
  XS !! i = Some ri -> XS !! j = Some rj ->
  length ri = length rj -> ri <> [] ->
  row_norm (mean_center ri) <> 0 -> row_norm (mean_center rj) <> 0 ->
  exists yi yj,
    normalize_cloud XS !! i = Some yi
    /\ normalize_cloud XS !! j = Some yj
    /\ row_norm (zip_with fsub yi yj) <= 2.
Proof.
  intros Hi Hj Hlen Hne Hni Hnj.
  assert (rj <> []) as Hne' by (destruct ri, rj; try congruence; discriminate).
  exists (unit_scale (mean_center ri)), (unit_scale (mean_center rj)).
  unfold normalize_cloud. rewrite !list_lookup_fmap, Hi, Hj.
  split; [reflexivity|]. split; [reflexivity|].
  apply unit_rows_distance.
  - unfold unit_scale, mean_center. rewrite !length_map. exact Hlen.
  - apply normalized_row_unit; assumption.
  - apply normalized_row_unit; assumption.
Qed.

(** The windows (0, 3) and (3, 0) are normalized to antipodal points. *)
Lemma normalize_cloud_diameter_witness :
  row_norm (mean_center [0; 3]) <> 0 /\ row_norm (mean_center [3; 0]) <> 0
  /\ exists yi yj,
       normalize_cloud [[0; 3]; [3; 0]] !! 0%nat = Some yi
       /\ normalize_cloud [[0; 3]; [3; 0]] !! 1%nat = Some yj
       /\ row_norm (zip_with fsub yi yj) <= 2.
Proof.
  split; [exact row_norm_03|]. split; [exact row_norm_30|].
  apply (normalize_cloud_diameter [[0; 3]; [3; 0]] 0 1 [0; 3] [3; 0]
           eq_refl eq_refl eq_refl ltac:(discriminate) row_norm_03 row_norm_30).
Defined.

(** ** The Gram matrix of [getPCAVideo] *)

Lemma dot_comm (a b : list R) : dot a b = dot b a.
Proof.
  unfold dot. f_equal. revert b. induction a as [|x a IH]; intros [|y b]; try reflexivity.
  cbn. f_equal; [lraR|apply IH].
Qed.

(** [ICov = I.dot(I.T)], the matrix handed to [linalg.eigh], is symmetric
    with a non-negative diagonal, whatever the frames are (rows of
    different lengths included: [zip] stops at the shorter). *)
Theorem gram_symmetric (I : matrix R) :
  (forall i j, dot_T I I !! i ≫= (.!! j) = dot_T I I !! j ≫= (.!! i))
  /\ (forall i d, dot_T I I !! i ≫= (.!! i) = Some d -> 0 <= d).
Proof.
  split.
  - intros i j. unfold dot_T. rewrite !list_lookup_fmap.
    destruct (I !! i) as [a|] eqn:Ea, (I !! j) as [b|] eqn:Eb; cbn;
      rewrite ?list_lookup_fmap, ?Ea, ?Eb; cbn; try reflexivity.
    f_equal. apply dot_comm.
  - intros i d. unfold dot_T. rewrite !list_lookup_fmap.
    destruct (I !! i) as [a|] eqn:Ea; cbn; [|discriminate].
    rewrite list_lookup_fmap, Ea. cbn. intros [= <-].
    unfold dot. rewrite zip_with_diag. apply np_sum_squares_nonneg.
Qed.

Lemma getPCAVideo_dots (eigh : matrix R -> list R * matrix R) (X : matrix R) :
  reconstructs (dot_T X X) (fst (eigh (dot_T X X))) (snd (eigh (dot_T X X))) ->
  Forall (Rle 0) (fst (eigh (dot_T X X))) ->
  length (getPCAVideo eigh X) = length X
  /\ forall i j xi xj,
       X !! i = Some xi -> X !! j = Some xj ->
       exists yi yj,
         getPCAVideo eigh X !! i = Some yi
         /\ getPCAVideo eigh X !! j = Some yj
         /\ dot yi yj = dot xi xj.
Proof.
  intros Hrec Hpos.
  unfold getPCAVideo. destruct (eigh (dot_T X X)) as [lam V] eqn:E.
  cbn [fst snd] in Hrec, Hpos. destruct Hrec as (HlenV & HshapeV & HG).
  assert (length (dot_T X X) = length X) as HlenG by (unfold dot_T; apply length_map).
  split. { unfold scale_columns. rewrite length_map. congruence. }
  intros i j xi xj Hi Hj.
  destruct (lookup_lt_is_Some_2 V i) as [vi Hvi].
  { rewrite HlenV, HlenG. eapply lookup_lt_Some; eauto. }
  destruct (lookup_lt_is_Some_2 V j) as [vj Hvj].
  { rewrite HlenV, HlenG. eapply lookup_lt_Some; eauto. }
  exists (zip_with fmul vi (map np_sqrt lam)), (zip_with fmul vj (map np_sqrt lam)).
  unfold scale_columns. rewrite !list_lookup_fmap, Hvi, Hvj.
  split; [reflexivity|]. split; [reflexivity|].
  cbn [fmul R_scalar]. unfold np_sqrt, R_roots. rewrite dot_scaled by exact Hpos.
  destruct (dot_T_lookup X X i j xi xj Hi Hj) as (gi & Hgi & Hgij).
  specialize (HG i j vi vj gi Hvi Hvj Hgi). congruence.
Qed.

(** In exact arithmetic, with an eigensolver that returns the spectral
    decomposition of the Gram matrix and no negative eigenvalue, the
    output [Y] of [getPCAVideo] has the Gram matrix of the frames:
    [Y Y^T = X X^T].  All inner products, hence norms, angles and
    distances, are those of the frames. *)
Theorem getPCAVideo_gram (eigh : matrix R -> list R * matrix R) (X : matrix R) :
  reconstructs (dot_T X X) (fst (eigh (dot_T X X))) (snd (eigh (dot_T X X))) ->
  Forall (Rle 0) (fst (eigh (dot_T X X))) ->
  dot_T (getPCAVideo eigh X) (getPCAVideo eigh X) = dot_T X X.
Proof.
  intros Hrec Hpos.
  destruct (getPCAVideo_dots eigh X Hrec Hpos) as [Hlen Hdots].
  set (Y := getPCAVideo eigh X) in *.
  apply list_eq. intros i. unfold dot_T. rewrite !list_lookup_fmap.
  destruct (X !! i) as [xi|] eqn:Exi.
  - assert (exists yi, Y !! i = Some yi) as [yi Hyi].
    { apply lookup_lt_is_Some_2. rewrite Hlen. eapply lookup_lt_Some; eauto. }
    rewrite Hyi. cbn. f_equal.
    apply list_eq. intros j. rewrite !list_lookup_fmap.
    destruct (X !! j) as [xj|] eqn:Exj.
    + destruct (Hdots i j xi xj Exi Exj) as (yi' & yj & Hyi' & Hyj & Hd).
      rewrite Hyi in Hyi'. inversion Hyi'; subst yi'. rewrite Hyj. cbn. f_equal. exact Hd.
    + assert (Y !! j = None) as ->; [|reflexivity].
      apply lookup_ge_None. rewrite Hlen. apply lookup_ge_None. exact Exj.
  - assert (Y !! i = None) as ->; [|reflexivity].
    apply lookup_ge_None. rewrite Hlen. apply lookup_ge_None. exact Exi.
Qed.

Lemma eigh_10_reconstructs :
  reconstructs (dot_T [[1]; [0]] [[1]; [0]]) [0; 1] [[0; 1]; [1; 0]].
Proof.
  split; [reflexivity|]. split; [repeat constructor|].
  intros i j vi vj gi Hvi Hvj Hgi.
  destruct i as [|[|i]]; [| |discriminate];
    destruct j as [|[|j]]; try discriminate;
    cbn in Hvi, Hvj, Hgi; inversion Hvi; inversion Hvj; inversion Hgi; subst;
    unfold spectral_sum, dot, np_sum; cbn; f_equal; lraR.
Qed.

(** Two frames of one feature, 1 and 0. *)
Lemma getPCAVideo_gram_witness :
  reconstructs (dot_T [[1]; [0]] [[1]; [0]]) [0; 1] [[0; 1]; [1; 0]]
  /\ Forall (Rle 0) [0; 1]
  /\ dot_T (getPCAVideo eigh_10 [[1]; [0]]) (getPCAVideo eigh_10 [[1]; [0]])
     = dot_T [[1]; [0]] [[1]; [0]].
Proof.
  assert (Forall (Rle 0) [0; 1]) as Hpos by (repeat constructor; lraR).
  split; [exact eigh_10_reconstructs|]. split; [exact Hpos|].
  apply (getPCAVideo_gram eigh_10 [[1]; [0]] eigh_10_reconstructs Hpos).
Defined.

End RealNormalize.

(** ** The KTH cell: short videos, empty blocks, and what the loop retains *)

Section RealBlocks.
Local Open Scope R_scope.

Lemma feqb_R_refl (a : R) : feqb a a = true.
Proof. cbn. destruct (Req_dec_T a a); [reflexivity|congruence]. Qed.

(** An empty block has no parameters: if [dim = 1] the division for
    [Tau] raises, otherwise the division by the block length does. *)
Lemma block_cloud_empty_block (win dim : Z) (X : matrix R) :
  block_cloud (T:=R) win dim X [] = Raise ZeroDivisionError.
Proof.
  unfold block_cloud, block_params.
  destruct (py_div (of_int win) (of_int (dim - 1))) as [Tau|e] eqn:E.
  - rbind. unfold py_div at 1. cbn [length Z.of_nat].
    change (of_int 0) with (fzero (T:=R)). rewrite feqb_R_refl. reflexivity.
  - unfold py_div in E. destruct (feqb _ _); [|discriminate].
    inversion E. reflexivity.
Qed.

(** [ceil(1 + a/b)] over the reals. *)
Lemma ceil_R_div (a b : Z) :
  (0 < b)%Z -> (- Int_part (- (IZR 1 + IZR a / IZR b)) = 1 + (a + b - 1) / b)%Z.
Proof.
  intros Hb.
  pose proof (Z.div_mod (a + b - 1) b ltac:(lia)) as Hd.
  pose proof (Z.mod_pos_bound (a + b - 1) b Hb) as Hm.
  set (c := ((a + b - 1) / b)%Z) in *.
  assert (0 < IZR b) as Hb' by (apply IZR_lt; exact Hb).
  assert (IZR c - 1 < IZR a / IZR b <= IZR c) as [Hlo Hhi].
  { split.
    - apply (Rmult_lt_reg_r (IZR b)); [exact Hb'|].
      unfold Rdiv. rewrite Rmult_assoc, Rinv_l, Rmult_1_r by lraR.
      replace ((IZR c - 1) * IZR b) with (IZR ((c - 1) * b)) by (rewrite mult_IZR, minus_IZR; lraR).
      apply IZR_lt. nia.
    - apply (Rmult_le_reg_r (IZR b)); [exact Hb'|].
      unfold Rdiv. rewrite Rmult_assoc, Rinv_l, Rmult_1_r by lraR.
      rewrite <- mult_IZR. apply IZR_le. nia. }
  assert (Int_part (- (IZR 1 + IZR a / IZR b)) = - (1 + c))%Z as ->; [|lia].
  symmetry. apply Int_part_spec. rewrite opp_IZR, plus_IZR. lraR.
Qed.

Lemma NBlocks_of_R (N BlockLen BlockHop : Z) :
  (0 < BlockHop)%Z ->
  NBlocks_of (T:=R) N BlockLen BlockHop
  = Ok (1 + (N - BlockLen + BlockHop - 1) / BlockHop)%Z.
Proof.
  intros HH. unfold NBlocks_of.
  rewrite py_div_ok.
  2:{ apply feqb_R_false. cbn. apply not_0_IZR. lia. }
  rbind. unfold py_int_ceil. cbn [ceil_int R_rounding fadd fdiv of_int R_scalar].
  f_equal. apply ceil_R_div. exact HH.
Qed.

(** A block of two frames embedded with [win = 0], [dim = 2]: [Tau = 0],
    [dT = 1], two windows counted and the first one already cut. *)
Lemma block_cloud_two_frames (X : matrix R) (a b : Z) (ra rb : list R) :
  take_rows X [a; b] = Ok [ra; rb] -> block_cloud (T:=R) 0 2 X [a; b] = Ok [].
Proof.
  intros Ht. unfold block_cloud, block_params.
  change (Z.of_nat (length [a; b])) with 2%Z. change (2 - 1)%Z with 1%Z.
  rewrite py_div_ok by (apply feqb_R_false; cbn; lraR). rbind.
  rewrite py_div_ok by (apply feqb_R_false; cbn; lraR). rbind.
  rewrite Ht. rbind.
  set (Tau := (of_int 0 / of_int 1)%num).
  set (dT := ((of_int 2 - of_int 2 * Tau) / of_int 2)%num).
  assert (Tau = 0) as HTau by (unfold Tau; cbn; lraR).
  assert (dT = 1) as HdT by (unfold dT; rewrite HTau; cbn; lraR).
  unfold getSlidingWindowVideo. change (Z.of_nat (length [ra; rb])) with 2%Z.
  rewrite py_div_ok by (apply feqb_R_false; rewrite HdT; cbn; lraR). rbind.
  unfold py_int_floor at 1. cbn [floor_int R_rounding].
  replace (Int_part _) with 2%Z.
  2:{ transitivity (Int_part (IZR 2)); [symmetry; apply Int_part_IZR|].
      f_equal. rewrite HTau, HdT. cbn. lraR. }
  rbind. unfold np_zeros2.
  replace ((2 <? 0)%Z || (2 * shape1 [ra; rb] <? 0)%Z) with false.
  2:{ symmetry. apply orb_false_iff. pose proof (shape1_nonneg [ra; rb]).
      split; apply Z.ltb_ge; lia. }
  rbind. change (seq 0 (Z.to_nat 2)) with (0%nat :: seq 1 1). cbn [sliding_loop].
  rewrite idxx_first, idxx_last by lia. rbind.
  unfold py_int_floor, py_int_ceil. cbn [floor_int ceil_int R_rounding]. rbind.
  change (Z.of_nat (length [ra; rb])) with 2%Z.
  replace (- Int_part _)%Z with 0%Z.
  2:{ transitivity (- Int_part (IZR 0))%Z; [rewrite Int_part_IZR; reflexivity|].
      do 2 f_equal. rewrite HTau, HdT. change (2 - 1)%Z with 1%Z.
      change (Z.of_nat 0) with 0%Z. cbn. lraR. }
  reflexivity.
Qed.

End RealBlocks.

Section RealCell.
Local Open Scope R_scope.
Variable doRips : matrix R -> Z -> list (list (R * R)).
Variables BlockLen BlockHop win dim : Z.

(** Videos shorter than a block.  With [N] frames and a positive hop:
    for [N <= BlockLen - 2*BlockHop] the block count is negative and
    [np.zeros(NBlocks)] raises [ValueError]; for
    [BlockLen - 2*BlockHop < N <= BlockLen - BlockHop] there is no block
    at all, nothing is embedded and the video is scored 0; for
    [BlockLen - BlockHop < N <= BlockLen] the video is one block of all
    its frames. *)
Theorem kth_video_short (X : matrix R) :
  (0 < BlockHop)%Z ->
  ((Z.of_nat (length X) <= BlockLen - 2 * BlockHop)%Z ->
     kth_video doRips BlockLen BlockHop win dim X = Raise ValueError)
  /\ ((BlockLen - 2 * BlockHop < Z.of_nat (length X) <= BlockLen - BlockHop)%Z ->
     kth_video doRips BlockLen BlockHop win dim X
     = Ok {| res := []; score := 0; maxXS := []; maxPD := [] |})
  /\ ((BlockLen - BlockHop < Z.of_nat (length X) <= BlockLen)%Z ->
     block_idxs (T:=R) (Z.of_nat (length X)) BlockLen BlockHop
     = Ok [seqZ 0 (Z.of_nat (length X))]).
Proof.
  intros HH. unfold kth_video, block_idxs.
  rewrite NBlocks_of_R by exact HH. rbind.
  set (N := Z.of_nat (length X)).
  pose proof (Z.div_mod (N - BlockLen + BlockHop - 1) BlockHop ltac:(lia)) as Hd.
  pose proof (Z.mod_pos_bound (N - BlockLen + BlockHop - 1) BlockHop HH) as Hm.
  set (c := ((N - BlockLen + BlockHop - 1) / BlockHop)%Z) in *.
  split; [|split]; intros HN.
  - assert (1 + c < 0)%Z as Hneg by nia.
    unfold np_zeros. replace (1 + c <? 0)%Z with true by (symmetry; apply Z.ltb_lt; lia).
    reflexivity.
  - assert (1 + c = 0)%Z as -> by nia. reflexivity.
  - assert (1 + c = 1)%Z as -> by nia.
    change (seqZ 0 1) with [0%Z]. cbn [map]. rewrite thisidxs_clamped.
    do 3 f_equal. lia.
Qed.

(** The blocks whose cloud is known are scored; the loop goes on with the
    rest. *)
Lemma kth_loop_app (X : matrix R) (pre rest : list (list Z)) clouds j st :
  mapM (block_cloud win dim X) pre = Ok clouds ->
  kth_loop doRips win dim X j (pre ++ rest) st
  = kth_loop doRips win dim X (j + length pre) rest (score_all doRips j clouds st).
Proof.
  revert clouds j st. induction pre as [|idx pre IH]; intros clouds j st Hc.
  - cbn in Hc. inversion Hc; subst. cbn. rewrite Nat.add_0_r. reflexivity.
  - cbn [mapM] in Hc. cbn [app kth_loop].
    destruct (block_cloud win dim X idx) as [XS|e]; [|discriminate].
    rbind. cbn [mbind result_bind] in Hc.
    destruct (mapM (block_cloud win dim X) pre) as [cs|e]; [|discriminate].
    cbn in Hc. inversion Hc; subst. cbn [score_all length].
    rewrite (IH cs (S j)) by reflexivity. f_equal. lia.
Qed.

(** An empty block stops the video.  When the partition holds an empty
    block (a hop larger than the block length leaves one at the end) and
    the blocks before it have clouds, the loop raises
    [ZeroDivisionError] at that block, and the scores of the earlier
    blocks are lost. *)
Theorem kth_video_empty_block (X : matrix R) (pre post : list (list Z))
    (clouds : list (matrix R)) :
  block_idxs (T:=R) (Z.of_nat (length X)) BlockLen BlockHop = Ok (pre ++ [] :: post) ->
  mapM (block_cloud win dim X) pre = Ok clouds ->
  kth_video doRips BlockLen BlockHop win dim X = Raise ZeroDivisionError.
Proof.
  intros Hidxs Hclouds.
  destruct (block_idxs_NBlocks _ _ _ _ Hidxs) as (NB & HNB & HlenNB).
  rewrite length_app in HlenNB. cbn [length] in HlenNB.
  unfold kth_video. rewrite Hidxs. rbind. rewrite HNB. rbind.
  unfold np_zeros. replace (NB <? 0)%Z with false by (symmetry; apply Z.ltb_ge; lia).
  rbind. rewrite (kth_loop_app X pre ([] :: post) clouds) by exact Hclouds.
  cbn [kth_loop]. rewrite block_cloud_empty_block. reflexivity.
Qed.





End RealCell.

Section RealCellExamples.
Local Open Scope R_scope.

(** Three frames and the notebook's blocks of 160 every 80. *)
Lemma kth_video_short_witness :
  (0 < 80)%Z
  /\ (160 - 2 * 80 < Z.of_nat (length X3) <= 160 - 80)%Z
  /\ kth_video rips_stub 160 80 20 20 X3
     = Ok {| res := []; score := 0; maxXS := []; maxPD := [] |}.
Proof.
  split; [lia|]. split; [cbn; lia|].
  apply (proj1 (proj2 (kth_video_short rips_stub 160 80 20 20 X3 ltac:(lia)))).
  cbn. lia.
Defined.

(** Ten frames in blocks of two every five: the third block is empty. *)
Lemma kth_video_empty_block_witness :
  block_idxs (T:=R) (Z.of_nat (length X10)) 2 5 = Ok ([[0; 1]; [5; 6]]%Z ++ [] :: [])
  /\ mapM (block_cloud (T:=R) 0 2 X10) [[0; 1]; [5; 6]]%Z = Ok [[]; []]
  /\ kth_video rips_stub 2 5 0 2 X10 = Raise ZeroDivisionError.
Proof.
  assert (block_idxs (T:=R) (Z.of_nat (length X10)) 2 5
          = Ok ([[0; 1]; [5; 6]]%Z ++ [] :: [])) as Hidxs.
  { unfold block_idxs. rewrite NBlocks_of_R by lia. reflexivity. }
  assert (mapM (block_cloud (T:=R) 0 2 X10) [[0; 1]; [5; 6]]%Z = Ok [[]; []]) as Hclouds.
  { cbn [mapM].
    rewrite (block_cloud_two_frames X10 0 1 [0] [1] eq_refl). rbind.
    rewrite (block_cloud_two_frames X10 5 6 [5] [6] eq_refl). reflexivity. }
  split; [exact Hidxs|]. split; [exact Hclouds|].
  exact (kth_video_empty_block rips_stub 2 5 0 2 X10 _ _ _ Hidxs Hclouds).
Defined.


End RealCellExamples.

(** ** All videos: the ranking is printed for all of them or not at all *)

Section Batch.
Context {T : Type} `{Scalar T} `{Rounding T} `{Roots T}.
Variable eigh : matrix T -> list T * matrix T.
Variable getTimeDerivative : matrix T -> Z -> matrix T * list Z.
Variable doRips : matrix T -> Z -> list (list (T * T)).
Variables BlockLen BlockHop win dim : Z.

Lemma mapM_Raise {A B} (f : A -> result B) (pre post : list A) (x : A) (e : exn) :
  (forall y, y ∈ pre -> exists b, f y = Ok b) -> f x = Raise e ->
  mapM f (pre ++ x :: post) = Raise e.
Proof.
  induction pre as [|y pre IH]; intros Hpre Hx.
  - cbn. rewrite Hx. reflexivity.
  - cbn [app mapM]. destruct (Hpre y) as [b Hb]; [apply elem_of_cons; now left|].
    rewrite Hb. rbind. rewrite IH; [reflexivity| |exact Hx].
    intros z Hz. apply Hpre. apply elem_of_cons. now right.
Qed.

(** The loop over the videos has no [try]: the first video whose blocks
    raise ends the cell with that exception, and nothing is ranked, not
    even the videos scored before it.  When the cell does reach the
    [print], the ranking is a permutation of [1 .. len(videos)]. *)
Theorem kth_ranking_all_or_nothing (videos : list (matrix T)) :
  (forall r, kth_ranking eigh getTimeDerivative doRips BlockLen BlockHop win dim videos = Ok r ->
     r ≡ₚ seq 1 (length videos))
  /\ (forall pre v post e,
        videos = pre ++ v :: post ->
        (forall u, u ∈ pre -> exists st,
            kth_video doRips BlockLen BlockHop win dim
              (fst (getTimeDerivative (getPCAVideo eigh u) 10)) = Ok st) ->
        kth_video doRips BlockLen BlockHop win dim
          (fst (getTimeDerivative (getPCAVideo eigh v) 10)) = Raise e ->
        kth_ranking eigh getTimeDerivative doRips BlockLen BlockHop win dim videos = Raise e).
Proof.
  split.
  - intros r Hr. unfold kth_ranking in Hr.
    destruct (kth_scores _ _ _ _ _ _ _ videos) as [scores|e] eqn:E; [|discriminate].
    cbn in Hr. inversion Hr; subst. rewrite ranking_perm.
    unfold kth_scores in E. apply mapM_Ok_length in E. rewrite E. reflexivity.
  - intros pre v post e -> Hpre Hv. unfold kth_ranking, kth_scores.
    rewrite (mapM_Raise _ pre post v e); [reflexivity| |].
    + intros u Hu. destruct (Hpre u Hu) as [st Hst].
      destruct (getTimeDerivative (getPCAVideo eigh u) 10) as [X' vi]. cbn [fst] in Hst.
      rewrite Hst. eexists. reflexivity.
    + destruct (getTimeDerivative (getPCAVideo eigh v) 10) as [X' vi]. cbn [fst] in Hv.
      rewrite Hv. reflexivity.
Qed.

End Batch.
